(** * Three one-shot patch scripts: fix_admin_type, fix_consensus_query, fix_query

    Each script reads one file in full, applies one [re.sub] with a
    hard-coded pattern and replacement, writes the file back and prints a
    line.  This development embeds

    - Python text as sequences of code points,
    - the part of the [re] module the scripts exercise (pattern parsing,
      the backtracking matcher, the search loop and the substitution loop
      shared by [re.sub] and [re.subn]),
    - the read / write / print shell as a state-and-exception monad over a
      small file-system model,

    and then proves the properties of the scripts. *)

From Stdlib Require Import NArith List String Ascii Bool Lia.
From stdpp Require Import gmap strings.

Open Scope N_scope.

(** ** Text *)

(** A Python [str] is a sequence of Unicode code points. *)
Abbreviation char := N (only parsing).
Abbreviation str := (list N) (only parsing).

Definition ord (a : ascii) : char := N_of_ascii a.

(** A source-code literal, as the text it denotes.  The literals of the
    scripts are ASCII; their raw strings and triple-quoted strings contain
    no escape that Python would rewrite. *)
Definition of_string (s : string) : str := map ord (list_ascii_of_string s).

(** [Py_UNICODE_ISSPACE]: the characters [\s] matches in a [str] pattern
    compiled without [re.ASCII]. *)
Definition Py_UNICODE_ISSPACE (c : char) : bool :=
  ((0x09 <=? c) && (c <=? 0x0D))
  || ((0x1C <=? c) && (c <=? 0x20))
  || (c =? 0x85) || (c =? 0xA0) || (c =? 0x1680)
  || ((0x2000 <=? c) && (c <=? 0x200A))
  || (c =? 0x2028) || (c =? 0x2029) || (c =? 0x202F) || (c =? 0x205F)
  || (c =? 0x3000).

(** ** The [re] module, as far as the scripts use it *)

Module re.

(** Flag values of the [re] module. *)
Definition MULTILINE : N := 8.
Definition DOTALL : N := 16.

(** A single-character matcher. *)
Inductive cls :=
  | Literal (c : char)          (* a literal character *)
  | CategorySpace               (* \s *)
  | AnyChar (dotall : bool).    (* . *)

Definition in_cls (k : cls) (c : char) : bool :=
  match k with
  | Literal a => c =? a
  | CategorySpace => Py_UNICODE_ISSPACE c
  | AnyChar dotall => dotall || negb (c =? 10)
  end.

(** A compiled pattern of the fragment: a sequence of single characters and
    greedy stars of single characters ([MAX_REPEAT 0 MAXREPEAT] over a
    one-character body). *)
Inductive item :=
  | One (k : cls)
  | MaxRepeat (k : cls).

Abbreviation pattern := (list item) (only parsing).

(** *** Parsing *)

Inductive token :=
  | TAtom (k : cls)
  | TStar.

Definition is_ascii_alnum (c : char) : bool :=
  ((ord "0" <=? c) && (c <=? ord "9"))
  || ((ord "A" <=? c) && (c <=? ord "Z"))
  || ((ord "a" <=? c) && (c <=? ord "z")).

(** Characters with a meaning of their own in a pattern ([SPECIAL_CHARS]
    without the backslash, the dot and the star, which [lex] handles). *)
Definition is_special (c : char) : bool :=
  existsb (N.eqb c) (of_string "[{()+?^$|").

(** [\s] is the only letter or digit escape of the fragment; a backslash
    before any other character makes that character literal. *)
Definition escape (e : char) : option cls :=
  if e =? ord "s" then Some CategorySpace
  else if is_ascii_alnum e then None
  else Some (Literal e).

(** The tokenizer: a backslash takes the next character with it.  [None]
    stands for a pattern outside the fragment (or one [re] rejects, such as
    a trailing backslash). *)
Fixpoint lex (dotall : bool) (source : str) : option (list token) :=
  match source with
  | [] => Some []
  | c :: rest =>
      if c =? ord "\" then
        match rest with
        | [] => None
        | e :: rest' =>
            match escape e with
            | Some k => cons (TAtom k) <$> lex dotall rest'
            | None => None
            end
        end
      else if c =? ord "*" then cons TStar <$> lex dotall rest
      else if c =? ord "." then cons (TAtom (AnyChar dotall)) <$> lex dotall rest
      else if is_special c then None
      else cons (TAtom (Literal c)) <$> lex dotall rest
  end.

(** A star applies to the atom before it; a star with nothing to repeat is
    an error. *)
Fixpoint items (ts : list token) : option pattern :=
  match ts with
  | [] => Some []
  | TAtom k :: TStar :: ts' => cons (MaxRepeat k) <$> items ts'
  | TAtom k :: ts' => cons (One k) <$> items ts'
  | TStar :: _ => None
  end.

(** [re.compile(pattern, flags)], on the fragment. *)
Definition compile (source : str) (flags : N) : option pattern :=
  lex (N.testbit flags 4) source ≫= items.

(** *** Matching *)

(** Greedy repetition of one character class: take as many characters as
    match, then give them back one at a time until the tail matches. *)
Fixpoint repeat_one (k : cls) (tail : str -> option str) (s : str) : option str :=
  match s with
  | c :: s' =>
      if in_cls k c then
        match repeat_one k tail s' with
        | Some r => Some r
        | None => tail s
        end
      else tail s
  | [] => tail []
  end.

(** The backtracking matcher at one position.  [success] decides whether a
    complete match leaving the given rest is accepted; the result is the
    text left after the match. *)
Fixpoint sre_match (p : pattern) (success : str -> option str) (s : str) : option str :=
  match p with
  | [] => success s
  | One k :: p' =>
      match s with
      | c :: s' => if in_cls k c then sre_match p' success s' else None
      | [] => None
      end
  | MaxRepeat k :: p' => repeat_one k (sre_match p' success) s
  end.

(** The top-level success test: with [must_advance] the match may not end
    where it started. *)
Definition toplevel (must_advance : bool) (start : str) (r : str) : option str :=
  if must_advance && (length r =? length start)%nat then None else Some r.

(** The text a match consumed, given what it left. *)
Definition consumed (s r : str) : str := take (length s - length r)%nat s.

(** The scan over later start positions, without [must_advance].  The result
    is the text before the match, the matched text and the text after it. *)
Fixpoint search_from (p : pattern) (s : str) : option (str * str * str) :=
  match sre_match p Some s with
  | Some r => Some ([], consumed s r, r)
  | None =>
      match s with
      | [] => None
      | c :: s' =>
          match search_from p s' with
          | Some (b, m, a) => Some (c :: b, m, a)
          | None => None
          end
      end
  end.

(** [sre_search]: [must_advance] applies to the first position only. *)
Definition sre_search (p : pattern) (must_advance : bool) (s : str)
  : option (str * str * str) :=
  match sre_match p (toplevel must_advance s) s with
  | Some r => Some ([], consumed s r, r)
  | None =>
      match s with
      | [] => None
      | c :: s' =>
          match search_from p s' with
          | Some (b, m, a) => Some (c :: b, m, a)
          | None => None
          end
      end
  end.

(** *** Substitution *)

(** The loop of [pattern_subx] with [count = 0] and a literal replacement:
    search from the end of the previous match, copy the text before the
    match, append the replacement, and require the next match to advance
    when this one was empty.  [None] only when the fuel runs out. *)
Fixpoint subx_loop (fuel : nat) (p : pattern) (filter : str) (s : str)
    (must_advance : bool) : option (str * nat) :=
  match fuel with
  | O => None
  | S fuel' =>
      match sre_search p must_advance s with
      | None => Some (s, O)
      | Some (b, m, a) =>
          match subx_loop fuel' p filter a (bool_decide (m = [])) with
          | Some (out, n) => Some (b ++ filter ++ out, S n)
          | None => None
          end
      end
  end.

Definition pattern_subx (p : pattern) (filter : str) (s : str) : option (str * nat) :=
  subx_loop (2 * length s + 2) p filter s false.

(** A replacement without a backslash is used as it is; templates with
    escapes or group references are outside the fragment. *)
Definition compile_repl (repl : str) : option str :=
  if existsb (N.eqb (ord "\")) repl then None else Some repl.

(** [re.subn(pattern, repl, string, flags=flags)]. *)
Definition subn (pattern repl string : str) (flags : N) : option (str * nat) :=
  p ← compile pattern flags;
  filter ← compile_repl repl;
  pattern_subx p filter string.

(** [re.sub(pattern, repl, string, flags=flags)]: the same loop, the count
    dropped. *)
Definition sub (pattern repl string : str) (flags : N) : option str :=
  fst <$> subn pattern repl string flags.

End re.

(** ** The shell: files, standard output, exceptions *)

(** A file as the scripts see it: the text [f.read()] returns (and
    [f.write] stores), and whether [open] succeeds in mode ['r'] and in
    mode ['w'].  A path without an entry is a missing file.  Failures are
    those of [open]; decoding and line-ending translation are below this
    model. *)
Record file := File { text : str; readable : bool; writable : bool }.

Record world := World { disk : gmap string file; stdout : list string }.

Inductive exn :=
  | OSError          (* open failed: missing file or permission denied *)
  | re_error         (* the pattern or the template does not compile *)
  | OutOfFuel.       (* the substitution loop of the model ran dry *)

Inductive result (A : Type) :=
  | Ok (a : A)
  | Raise (e : exn).
Arguments Ok {A} a.
Arguments Raise {A} e.

(** A statement: it may change the world and either yields a value or
    raises. *)
Definition M (A : Type) : Type := world -> result A * world.

Definition ret {A} (a : A) : M A := fun w => (Ok a, w).

Definition raise {A} (e : exn) : M A := fun w => (Raise e, w).

Definition bind {A B} (m : M A) (k : A -> M B) : M B :=
  fun w =>
    match m w with
    | (Ok a, w') => k a w'
    | (Raise e, w') => (Raise e, w')
    end.

Notation "x <- m ;; k" := (bind m (fun x => k))
  (at level 100, m at next level, right associativity).
Notation "m ;; k" := (bind m (fun _ => k))
  (at level 100, right associativity).

(** [with open(path, 'r') as f: content = f.read()] *)
Definition read_file (path : string) : M str :=
  fun w =>
    match disk w !! path with
    | Some f => if readable f then (Ok (text f), w) else (Raise OSError, w)
    | None => (Raise OSError, w)
    end.

(** [open(path, 'w')]: the file is truncated, or created empty. *)
Definition open_truncate (path : string) : M unit :=
  fun w =>
    match disk w !! path with
    | Some f =>
        if writable f
        then (Ok tt, World (<[path := File [] (readable f) true]> (disk w)) (stdout w))
        else (Raise OSError, w)
    | None => (Ok tt, World (<[path := File [] true true]> (disk w)) (stdout w))
    end.

(** [f.write(data)] on the file just opened. *)
Definition write (path : string) (data : str) : M unit :=
  fun w =>
    match disk w !! path with
    | Some f =>
        (Ok tt, World (<[path := File (text f ++ data) (readable f) (writable f)]> (disk w))
                      (stdout w))
    | None => (Raise OSError, w)
    end.

(** [with open(path, 'w') as f: f.write(data)] *)
Definition write_file (path : string) (data : str) : M unit :=
  open_truncate path ;; write path data.

(** [print(line)] *)
Definition print (line : string) : M unit :=
  fun w => (Ok tt, World (disk w) (stdout w ++ [line])).

(** [re.sub] as a statement: a pattern that does not compile raises. *)
Definition re_sub (pattern repl string : str) (flags : N) : M str :=
  match re.compile pattern flags, re.compile_repl repl with
  | Some p, Some filter =>
      match re.pattern_subx p filter string with
      | Some (out, _) => ret out
      | None => raise OutOfFuel
      end
  | _, _ => raise re_error
  end.

(** The exit status of the interpreter: 0 when the script runs to its end,
    1 when an exception escapes. *)
Definition exit_status {A} (r : result A) : Z :=
  match r with
  | Ok _ => 0%Z
  | Raise _ => 1%Z
  end.

(** ** The scripts *)

Module fix_admin_type.

Definition path : string :=
  "/Users/james/code/ftc-platform/src/app/admin/events/[eventId]/applications/AdminApplicationsClient.tsx".

Definition old_user_pattern : str :=
  of_string "user: \{\s*id: string;\s*name: string \| null;\s*email: string \| null;\s*profile\?:".

Definition new_user_replacement : str :=
  of_string "user: {
    id: string;
    name: string | null;
    email: string | null;
    adminNotes: string | null;
    adminLabels: string[];
    adminUpdatedAt: Date | null;
    profile?:".

Definition main : M unit :=
  content <- read_file path ;;
  updated_content <- re_sub old_user_pattern new_user_replacement content
                       (N.lor re.MULTILINE re.DOTALL) ;;
  write_file path updated_content ;;
  print "Updated ApplicationWithUser type".

End fix_admin_type.

Module fix_consensus_query.

Definition path : string :=
  "/Users/james/code/ftc-platform/src/server/api/routers/application.ts".

Definition old_consensus_pattern : str :=
  of_string "user: \{\s*select: \{\s*id: true,\s*name: true,\s*email: true,\s*\},\s*\},".

Definition new_consensus_replacement : str :=
  of_string "user: {
            select: {
              id: true,
              name: true,
              email: true,
              adminNotes: true,
              adminLabels: true,
              adminUpdatedAt: true,
              profile: true,
            },
          },".

Definition main : M unit :=
  content <- read_file path ;;
  updated_content <- re_sub old_consensus_pattern new_consensus_replacement content
                       (N.lor re.MULTILINE re.DOTALL) ;;
  write_file path updated_content ;;
  print "Updated getConsensusApplications user select".

End fix_consensus_query.

Module fix_query.

Definition path : string :=
  "/Users/james/code/ftc-platform/src/server/api/routers/application.ts".

Definition old_pattern : str :=
  of_string "user: \{\s*include: \{\s*profile: true,\s*\},\s*\},".

Definition new_replacement : str :=
  of_string "user: {
            select: {
              id: true,
              name: true,
              email: true,
              adminNotes: true,
              adminLabels: true,
              adminUpdatedAt: true,
              profile: true,
            },
          },".

Definition main : M unit :=
  content <- read_file path ;;
  updated_content <- re_sub old_pattern new_replacement content
                       (N.lor re.MULTILINE re.DOTALL) ;;
  write_file path updated_content ;;
  print "Updated user include section".

End fix_query.

(** The three scripts, as one enumeration. *)
Inductive script := FixAdminType | FixConsensusQuery | FixQuery.

Definition main_of (sc : script) : M unit :=
  match sc with
  | FixAdminType => fix_admin_type.main
  | FixConsensusQuery => fix_consensus_query.main
  | FixQuery => fix_query.main
  end.

Definition path_of (sc : script) : string :=
  match sc with
  | FixAdminType => fix_admin_type.path
  | FixConsensusQuery => fix_consensus_query.path
  | FixQuery => fix_query.path
  end.

Definition pattern_of (sc : script) : str :=
  match sc with
  | FixAdminType => fix_admin_type.old_user_pattern
  | FixConsensusQuery => fix_consensus_query.old_consensus_pattern
  | FixQuery => fix_query.old_pattern
  end.

Definition replacement_of (sc : script) : str :=
  match sc with
  | FixAdminType => fix_admin_type.new_user_replacement
  | FixConsensusQuery => fix_consensus_query.new_consensus_replacement
  | FixQuery => fix_query.new_replacement
  end.

Definition message_of (sc : script) : string :=
  match sc with
  | FixAdminType => "Updated ApplicationWithUser type"
  | FixConsensusQuery => "Updated getConsensusApplications user select"
  | FixQuery => "Updated user include section"
  end.

(** The flags every script passes. *)
Definition script_flags : N := N.lor re.MULTILINE re.DOTALL.



(** The shape every script has. *)
Definition script_body (path : string) (pattern repl : str) (line : string) : M unit :=
  content <- read_file path ;;
  updated_content <- re_sub pattern repl content script_flags ;;
  write_file path updated_content ;;
  print line.

(** The compiled pattern of a script, and the text its [re.sub] call
    returns. *)
Definition compiled_of (sc : script) : list re.item :=
  default [] (re.compile (pattern_of sc) script_flags).

Definition patched (sc : script) (content : str) : str :=
  default content (re.sub (pattern_of sc) (replacement_of sc) content script_flags).

(** The world after a run, and the status the interpreter exits with. *)
Definition world_after (sc : script) (w : world) : world := snd (main_of sc w).

Definition status_of (sc : script) (w : world) : Z := exit_status (fst (main_of sc w)).


Import re.

(** ** What a pattern matches, stated without the matcher *)

(** [lang p m]: the text [m] is matched, as a whole, by the pattern [p]. *)
Inductive lang : pattern -> str -> Prop :=
  | lang_nil : lang [] []
  | lang_one k c p m :
      in_cls k c = true -> lang p m -> lang (One k :: p) (c :: m)
  | lang_rep k w p m :
      Forall (fun c => in_cls k c = true) w -> lang p m ->
      lang (MaxRepeat k :: p) (w ++ m).

(** A match of [p] starts at the head of [u]. *)
Definition occurs (p : pattern) (u : str) : Prop :=
  exists m r, u = m ++ r /\ lang p m.

(** No match of [p] starts anywhere in [s]. *)
Definition no_match (p : pattern) (s : str) : Prop :=
  forall u, u `suffix_of` s -> ~ occurs p u.

(** The specification of the substitution, in the words of the contract:
    [replaced_all p repl s out n] holds when [out] is [s] with every
    non-overlapping match of [p], taken from left to right, replaced by
    [repl], and [n] replacements were made.  Each step takes the leftmost
    position at which a match starts, replaces a match [m] there and goes on
    in the text after it. *)
Inductive replaced_all (p : pattern) (repl : str) : str -> str -> nat -> Prop :=
  | replaced_none s :
      no_match p s -> replaced_all p repl s s O
  | replaced_step b m a out n :
      lang p m ->
      (forall u, u <> [] -> u `suffix_of` b -> ~ occurs p (u ++ m ++ a)) ->
      replaced_all p repl a out n ->
      replaced_all p repl (b ++ m ++ a) (b ++ repl ++ out) (S n).

(** ** Patterns that match without backtracking *)

(** Two classes that share no character (a sufficient test). *)
Definition disjoint (k1 k2 : cls) : bool :=
  match k1, k2 with
  | Literal a, Literal b => negb (a =? b)
  | Literal a, CategorySpace | CategorySpace, Literal a => negb (Py_UNICODE_ISSPACE a)
  | _, _ => false
  end.

(** Every star is followed by a single character outside its class: the
    star must then take all the characters it can, and the pattern ends in
    a single character. *)
Fixpoint scripted (p : pattern) : bool :=
  match p with
  | [] => true
  | One _ :: p' => scripted p'
  | MaxRepeat k :: p' =>
      match p' with
      | One k' :: _ => disjoint k k' && scripted p'
      | _ => false
      end
  end.

(** What is left of the pattern after it has read the character [c]. *)
Fixpoint deriv (c : char) (p : pattern) : option pattern :=
  match p with
  | [] => None
  | One k :: p' => if in_cls k c then Some p' else None
  | MaxRepeat k :: p' => if in_cls k c then Some p else deriv c p'
  end.

Inductive outcome :=
  | Matched (rest : str)     (* the pattern is complete; [rest] was not read *)
  | Failed                   (* a character was rejected *)
  | More (q : pattern).      (* the text ended while [q] was still to match *)

(** One pass over the text, left to right. *)
Fixpoint run (p : pattern) (s : str) : outcome :=
  match p, s with
  | [], _ => Matched s
  | _, [] => More p
  | _, c :: s' =>
      match deriv c p with
      | Some q => run q s'
      | None => Failed
      end
  end.

Definition is_failed (o : outcome) : bool :=
  match o with Failed => true | _ => false end.

(** The non-empty suffixes of a list. *)
Fixpoint tails {A} (l : list A) : list (list A) :=
  match l with
  | [] => []
  | _ :: l' => l :: tails l'
  end.

(** The replacement can neither complete nor begin a match: at each of its
    positions the pattern is rejected inside the replacement, and so is
    every pattern remainder that meets the replacement's first character. *)
Definition inert (p : pattern) (repl : str) : bool :=
  forallb (fun u => is_failed (run p u)) (tails repl)
  && forallb (fun q => is_failed (run q repl)) (tails p).

(** ** Fragments for the whitespace property *)

(** The fixed tokens of a pattern: its runs of literal characters, cut at
    each [\s*].  [None] for a pattern with any other item. *)
Fixpoint tokens (p : pattern) : option (list str) :=
  match p with
  | [] => Some [[]]
  | One (Literal c) :: p' =>
      match tokens p' with
      | Some (t :: ts) => Some ((c :: t) :: ts)
      | _ => None
      end
  | MaxRepeat CategorySpace :: p' => cons [] <$> tokens p'
  | _ => None
  end.

(** The tokens in order, with the [i]-th gap filled by the [i]-th text of
    [gaps]. *)
Fixpoint fragment (toks : list str) (gaps : list str) : str :=
  match toks with
  | [] => []
  | [t] => t
  | t :: toks' =>
      match gaps with
      | g :: gaps' => t ++ g ++ fragment toks' gaps'
      | [] => t ++ fragment toks' []
      end
  end.

Definition whitespace (g : str) : Prop := Forall (fun c => Py_UNICODE_ISSPACE c = true) g.

(** [re.fullmatch]: the pattern matches the whole text. *)
Definition fullmatch (p : pattern) (s : str) : bool :=
  bool_decide (sre_match p (fun r => match r with [] => Some r | _ => None end) s = Some []).

(** [re.search(...) is not None]. *)
Definition found (p : pattern) (s : str) : bool :=
  bool_decide (is_Some (sre_search p false s)).

(** Substring test, for the scenarios. *)
Fixpoint starts_with (t s : str) : bool :=
  match t, s with
  | [], _ => true
  | a :: t', b :: s' => (a =? b) && starts_with t' s'
  | _ :: _, [] => false
  end.

Fixpoint contains (t s : str) : bool :=
  starts_with t s || match s with [] => false | _ :: s' => contains t s' end.

(** The texts of [ts] occur in [s] one after the other, without overlap. *)
Fixpoint in_order (ts : list str) (s : str) : Prop :=
  match ts with
  | [] => True
  | t :: ts' => exists pre post, s = pre ++ t ++ post /\ in_order ts' post
  end.

(** The first occurrence of [t] in [s]: the text after it. *)
Fixpoint after (t s : str) : option str :=
  if starts_with t s then Some (drop (length t) s)
  else match s with
       | [] => None
       | _ :: s' => after t s'
       end.

Fixpoint in_orderb (ts : list str) (s : str) : bool :=
  match ts with
  | [] => true
  | t :: ts' =>
      match after t s with
      | Some post => in_orderb ts' post
      | None => false
      end
  end.

(** A block the pattern matches exactly, and into which no match begun
    earlier can run. *)
Definition isolated (p : pattern) (block : str) : bool :=
  match p with
  | One _ :: p' =>
      match run p block with
      | Matched [] => forallb (fun q => is_failed (run q block)) (tails p')
      | _ => false
      end
  | _ => false
  end.

(** ** The scenarios *)

Definition scenario_1_document : str :=
  of_string "user: {
  id: string;
  name: string | null;
  email: string | null;
  profile?: Profile;
}".

Definition scenario_1_expected : str :=
  of_string "user: {
    id: string;
    name: string | null;
    email: string | null;
    adminNotes: string | null;
    adminLabels: string[];
    adminUpdatedAt: Date | null;
    profile?: Profile;
}".

Definition scenario_1_fields : list str :=
  map of_string
    ["id:"; "name:"; "email:"; "adminNotes:"; "adminLabels:"; "adminUpdatedAt:"; "profile?:"].

Definition scenario_2_block : str :=
  of_string "user: {
  include: {
    profile: true,
  },
},".

(** A world with one file, under the path of the script. *)
Definition world_with (sc : script) (content : str) (can_read can_write : bool) : world :=
  World {[ path_of sc := File content can_read can_write ]} [].

(** ** Matches that keep apart *)

(** The two characters a pattern opens with, when it opens with two
    literals. *)
Definition opening (p : pattern) : option (char * char) :=
  match p with
  | One (Literal a) :: One (Literal b) :: _ => Some (a, b)
  | _ => None
  end.

(** No match of [p] that has begun can go on into a text that starts with
    [x]: every remainder of [p] rejects [x]. *)
Definition shut (p : pattern) (x : str) : bool :=
  forallb (fun q => is_failed (run q x)) (tails (tl p)).

(** A pattern whose matches cannot touch one another or a text that opens
    like them. *)
Definition self_apart (p : pattern) : bool :=
  match opening p with
  | Some (a, b) => scripted p && shut p [a; b]
  | None => false
  end.

(** Two patterns that, reading the same text, part ways on a literal before
    either is complete. *)
Fixpoint diverge (p1 p2 : pattern) : bool :=
  match p1, p2 with
  | One (Literal a) :: p1', One (Literal b) :: p2' => negb (a =? b) || diverge p1' p2'
  | MaxRepeat CategorySpace :: p1', MaxRepeat CategorySpace :: p2' => diverge p1' p2'
  | _, _ => false
  end.

(** Two patterns with one replacement, such that no match of one touches a
    match of the other and the replacement serves neither. *)
Definition apart (p1 p2 : pattern) (repl : str) : bool :=
  match opening p1, opening p2 with
  | Some (a1, b1), Some (a2, b2) =>
      scripted p1 && scripted p2
      && inert p1 repl && inert p2 repl
      && diverge p1 p2 && diverge p2 p1
      && shut p1 [a1; b1] && shut p1 [a2; b2]
      && shut p2 [a1; b1] && shut p2 [a2; b2]
  | _, _ => false
  end.

(** The leftmost match of either pattern replaced, and so on in the text
    after it; the two numbers count the matches of the first and of the
    second pattern that were replaced. *)
Inductive replaced_both (p1 p2 : pattern) (repl : str) : str -> str -> nat -> nat -> Prop :=
  | both_none s :
      no_match p1 s -> no_match p2 s -> replaced_both p1 p2 repl s s O O
  | both_first b m a out k1 k2 :
      lang p1 m ->
      (forall u, u <> [] -> u `suffix_of` b ->
                 ~ occurs p1 (u ++ m ++ a) /\ ~ occurs p2 (u ++ m ++ a)) ->
      replaced_both p1 p2 repl a out k1 k2 ->
      replaced_both p1 p2 repl (b ++ m ++ a) (b ++ repl ++ out) (S k1) k2
  | both_second b m a out k1 k2 :
      lang p2 m ->
      (forall u, u <> [] -> u `suffix_of` b ->
                 ~ occurs p1 (u ++ m ++ a) /\ ~ occurs p2 (u ++ m ++ a)) ->
      replaced_both p1 p2 repl a out k1 k2 ->
      replaced_both p1 p2 repl (b ++ m ++ a) (b ++ repl ++ out) k1 (S k2).

(** * Proofs *)

(** ** The embedding on small inputs *)

(** Empty matches: one after each non-empty match, none twice at the same
    place. *)
Example subn_empty_matches :
  re.subn (of_string "a*") (of_string "-") (of_string "baac") 0
  = Some (of_string "-b--c-", 4%nat).
Proof. by vm_compute. Qed.

(** The dot stops at a line break unless [DOTALL] is given. *)
Example dot_without_dotall :
  re.sub (of_string "a.*") (of_string "-") [120; 97; 98; 10; 99] 0
  = Some [120; 45; 10; 99].
Proof. by vm_compute. Qed.

Example dot_with_dotall :
  re.sub (of_string "a.*") (of_string "-") [120; 97; 98; 10; 99] re.DOTALL
  = Some [120; 45].
Proof. by vm_compute. Qed.

(** Nothing to repeat, multiple repeat, a trailing backslash. *)
Example compile_rejects :
  map (fun source => re.compile (of_string source) 0) ["*a"; "a**"; "a\"]
  = [None; None; None].
Proof. by vm_compute. Qed.

(** The fixed tokens of the three patterns. *)
Example tokens_fix_admin_type :
  tokens (compiled_of FixAdminType)
  = Some (map of_string
            ["user: {"; "id: string;"; "name: string | null;"; "email: string | null;";
             "profile?:"]).
Proof. by vm_compute. Qed.

Example tokens_fix_consensus_query :
  tokens (compiled_of FixConsensusQuery)
  = Some (map of_string
            ["user: {"; "select: {"; "id: true,"; "name: true,"; "email: true,"; "},"; "},"]).
Proof. by vm_compute. Qed.

Example tokens_fix_query :
  tokens (compiled_of FixQuery)
  = Some (map of_string ["user: {"; "include: {"; "profile: true,"; "},"; "},"]).
Proof. by vm_compute. Qed.

(** A space inside a token is a literal space: the document of scenario 1
    with two spaces after [user:] is not matched. *)
Example space_inside_token_is_literal :
  found (compiled_of FixAdminType) (of_string "user:  {
  id: string;
  name: string | null;
  email: string | null;
  profile?: Profile;
}") = false.
Proof. by vm_compute. Qed.

(** ** The matcher against the declarative semantics *)

Section Matcher.

Implicit Types (p : pattern) (k : cls) (s r m u : str).

Lemma repeat_one_sound k tail s r :
  repeat_one k tail s = Some r ->
  exists w s', s = w ++ s' /\ Forall (fun c => in_cls k c = true) w /\ tail s' = Some r.
Proof.
  revert r. induction s as [|c s IH]; intros r H; simpl in H.
  - exists [], []. auto.
  - destruct (in_cls k c) eqn:Hc.
    + destruct (repeat_one k tail s) as [r'|] eqn:Hr.
      * injection H as <-. destruct (IH r' eq_refl) as (w & s' & -> & Hw & Ht).
        exists (c :: w), s'. split; [done|]. split; [by constructor|done].
      * exists [], (c :: s). auto.
    + exists [], (c :: s). auto.
Qed.

Lemma sre_match_sound p : forall success s r,
  sre_match p success s = Some r ->
  exists m rest, s = m ++ rest /\ lang p m /\ success rest = Some r.
Proof.
  induction p as [|[k|k] p IH]; intros success s r H; simpl in H.
  - exists [], s. split; [done|]. split; [constructor|done].
  - destruct s as [|c s]; [done|]. destruct (in_cls k c) eqn:Hc; [|done].
    destruct (IH _ _ _ H) as (m & rest & -> & Hm & Hs).
    exists (c :: m), rest. split; [done|]. split; [by constructor|done].
  - destruct (repeat_one_sound _ _ _ _ H) as (w & s' & -> & Hw & Ht).
    destruct (IH _ _ _ Ht) as (m & rest & -> & Hm & Hs).
    exists (w ++ m), rest. rewrite <- app_assoc. split; [done|].
    split; [by constructor|done].
Qed.

Lemma repeat_one_complete k tail w s :
  Forall (fun c => in_cls k c = true) w ->
  is_Some (tail s) -> is_Some (repeat_one k tail (w ++ s)).
Proof.
  intros Hw Ht. induction Hw as [|c w Hc Hw IH]; simpl.
  - destruct s as [|c s]; simpl; [done|].
    destruct (in_cls k c); [|done]. by destruct (repeat_one k tail s).
  - rewrite Hc. destruct IH as [r ->]. by eexists.
Qed.

Lemma sre_match_complete p m : forall success rest,
  lang p m -> is_Some (success rest) -> is_Some (sre_match p success (m ++ rest)).
Proof.
  intros success rest Hm. revert success rest.
  induction Hm as [|k c p m Hc Hm IH|k w p m Hw Hm IH]; intros success rest Hs; simpl.
  - done.
  - rewrite Hc. by apply IH.
  - rewrite <- app_assoc. apply repeat_one_complete; [done|]. by apply IH.
Qed.

(** The matcher only asks [success] about what a match can leave. *)
Lemma repeat_one_ext k tail1 tail2 s :
  (forall w s', s = w ++ s' -> Forall (fun c => in_cls k c = true) w -> tail1 s' = tail2 s') ->
  repeat_one k tail1 s = repeat_one k tail2 s.
Proof.
  induction s as [|c s IH]; intros H; simpl.
  - apply (H [] []); [done|constructor].
  - assert (tail1 (c :: s) = tail2 (c :: s)) as Hhd by (apply (H []); [done|constructor]).
    destruct (in_cls k c) eqn:Hc; [|done].
    rewrite IH, Hhd; [done|].
    intros w s' -> Hw. apply (H (c :: w)); [done|by constructor].
Qed.

Lemma sre_match_ext p : forall (ok1 ok2 : str -> option str) s,
  (forall m r, s = m ++ r -> lang p m -> ok1 r = ok2 r) ->
  sre_match p ok1 s = sre_match p ok2 s.
Proof.
  induction p as [|[k|k] p IH]; intros ok1 ok2 s H; simpl.
  - apply (H []); [done|constructor].
  - destruct s as [|c s]; [done|]. destruct (in_cls k c) eqn:Hc; [|done].
    apply IH. intros m r -> Hm. apply (H (c :: m)); [done|by constructor].
  - apply repeat_one_ext. intros w s' -> Hw. apply IH.
    intros m r -> Hm. apply (H (w ++ m)); [by rewrite app_assoc|by constructor].
Qed.

Lemma consumed_app m r : consumed (m ++ r) r = m.
Proof.
  unfold consumed. rewrite length_app.
  replace (length m + length r - length r)%nat with (length m) by lia.
  by rewrite take_app_length.
Qed.

Lemma sre_match_Some_occurs p s r :
  sre_match p Some s = Some r -> s = consumed s r ++ r /\ lang p (consumed s r).
Proof.
  intros H. destruct (sre_match_sound _ _ _ _ H) as (m & rest & -> & Hm & [= ->]).
  by rewrite consumed_app.
Qed.

Lemma sre_match_None_occurs p s :
  sre_match p Some s = None -> ~ occurs p s.
Proof.
  intros H (m & r & -> & Hm).
  destruct (sre_match_complete p m Some r Hm) as [x Hx]; [by eexists|congruence].
Qed.

Lemma occurs_sre_match p s :
  occurs p s -> is_Some (sre_match p Some s).
Proof. intros (m & r & -> & Hm). apply sre_match_complete; [done|by eexists]. Qed.

Lemma toplevel_sound adv s r r' : toplevel adv s r = Some r' -> r' = r.
Proof. unfold toplevel. by destruct (_ && _); intros [=]. Qed.

(** A pattern that cannot match the empty text never meets the
    [must_advance] test. *)
Lemma sre_match_must_advance p adv s :
  ~ lang p [] -> sre_match p (toplevel adv s) s = sre_match p Some s.
Proof.
  intros Hne. apply sre_match_ext. intros m r -> Hm. unfold toplevel.
  destruct m as [|c m]; [done|].
  replace (length r =? length ((c :: m) ++ r))%nat with false; [by rewrite andb_false_r|].
  symmetry. apply Nat.eqb_neq. rewrite length_app. simpl. lia.
Qed.

(** *** The search *)

Lemma search_from_Some p : forall s b m a,
  search_from p s = Some (b, m, a) ->
  s = b ++ m ++ a /\ lang p m /\
  (forall u, u <> [] -> u `suffix_of` b -> ~ occurs p (u ++ m ++ a)).
Proof.
  induction s as [|c s IH]; intros b m a H; simpl in H.
  - destruct (sre_match p Some []) as [r|] eqn:Hr; [|done].
    injection H as <- <- <-. destruct (sre_match_Some_occurs _ _ _ Hr) as [Heq Hl].
    split; [done|]. split; [done|]. intros u Hu [k Hk]. by destruct k, u.
  - destruct (sre_match p Some (c :: s)) as [r|] eqn:Hr.
    + injection H as <- <- <-. destruct (sre_match_Some_occurs _ _ _ Hr) as [Heq Hl].
      split; [done|]. split; [done|]. intros u Hu [k Hk]. by destruct k, u.
    + destruct (search_from p s) as [[[b' m'] a']|] eqn:Hs; [|done].
      injection H as <- <- <-. destruct (IH _ _ _ eq_refl) as (-> & Hl & Hleft).
      split; [done|]. split; [done|].
      intros u Hu [k Hk]. destruct k as [|c' k].
      * simpl in Hk. subst u. simpl. by apply sre_match_None_occurs.
      * injection Hk as -> ->. apply Hleft; [done|]. by exists k.
Qed.

Lemma search_from_None p : forall s, search_from p s = None -> no_match p s.
Proof.
  induction s as [|c s IH]; intros H u [k Hk]; simpl in H.
  - destruct (sre_match p Some []) eqn:Hr; [done|].
    destruct k, u; try done. by apply sre_match_None_occurs.
  - destruct (sre_match p Some (c :: s)) eqn:Hr; [done|].
    destruct (search_from p s) as [[[b' m'] a']|] eqn:Hs; [done|].
    destruct k as [|c' k].
    + simpl in Hk. subst u. by apply sre_match_None_occurs.
    + injection Hk as -> ->. apply (IH eq_refl). by exists k.
Qed.

Lemma no_match_search_from p : forall s, no_match p s -> search_from p s = None.
Proof.
  intros s H. destruct (search_from p s) as [[[b m] a]|] eqn:Hs; [|done].
  destruct (search_from_Some _ _ _ _ _ Hs) as (-> & Hl & _).
  exfalso. apply (H (m ++ a)); [by exists b|]. by exists m, a.
Qed.

Lemma sre_search_no_advance p s : sre_search p false s = search_from p s.
Proof. by destruct s. Qed.

Lemma sre_search_nonnull p adv s :
  ~ lang p [] -> sre_search p adv s = search_from p s.
Proof.
  intros Hne. rewrite <- sre_search_no_advance. unfold sre_search.
  by rewrite !sre_match_must_advance.
Qed.

End Matcher.

(** ** The substitution loop *)

Section Loop.

Implicit Types (p : pattern) (s r m u filter : str) (adv : bool).

Lemma sre_search_split p adv s b m a :
  sre_search p adv s = Some (b, m, a) ->
  s = b ++ m ++ a /\ (adv = true -> b = [] -> m <> []).
Proof.
  unfold sre_search. intros H.
  destruct (sre_match p (toplevel adv s) s) as [r|] eqn:Hr.
  - injection H as <- <- <-.
    destruct (sre_match_sound _ _ _ _ Hr) as (m & rest & -> & _ & Ht).
    pose proof (toplevel_sound _ _ _ _ Ht) as ->. rewrite consumed_app.
    split; [done|]. intros -> _ ->. unfold toplevel in Ht. simpl in Ht.
    by rewrite Nat.eqb_refl in Ht.
  - destruct s as [|c s]; [done|].
    destruct (search_from p s) as [[[b' m'] a']|] eqn:Hs; [|done].
    injection H as <- <- <-.
    destruct (search_from_Some _ _ _ _ _ Hs) as (-> & _ & _). done.
Qed.

(** The loop always ends within the fuel [pattern_subx] gives it, for every
    pattern of the fragment. *)
Lemma subx_loop_total p filter : forall fuel s adv,
  (2 * length s + (if adv then 0 else 1) < fuel)%nat ->
  is_Some (subx_loop fuel p filter s adv).
Proof.
  induction fuel as [|fuel IH]; intros s adv Hlt; [lia|]. simpl.
  destruct (sre_search p adv s) as [[[b m] a]|] eqn:Hs; [|by eexists].
  destruct (sre_search_split _ _ _ _ _ _ Hs) as [-> Hadv].
  destruct (IH a (bool_decide (m = []))) as [[out n] ->]; [|by eexists].
  rewrite !length_app in Hlt. case_bool_decide as Hm.
  - subst m. simpl in Hlt. destruct b as [|c b]; simpl in Hlt; [|lia].
    destruct adv; [by destruct Hadv|lia].
  - destruct m; [done|]. simpl in Hlt. destruct adv; lia.
Qed.

Lemma pattern_subx_total p filter s : is_Some (pattern_subx p filter s).
Proof. apply subx_loop_total. lia. Qed.

(** Without a match the text is returned as it is. *)
Lemma no_match_cons p c s : no_match p (c :: s) -> no_match p s.
Proof. intros H u Hu. apply H. by apply suffix_cons_r. Qed.

Lemma no_match_sre_search p adv s : no_match p s -> sre_search p adv s = None.
Proof.
  intros H. unfold sre_search.
  destruct (sre_match p (toplevel adv s) s) as [r|] eqn:Hr.
  - destruct (sre_match_sound _ _ _ _ Hr) as (m & rest & -> & Hm & _).
    exfalso. apply (H (m ++ rest)); [done|]. by exists m, rest.
  - destruct s as [|c s]; [done|].
    by rewrite no_match_search_from; [|eapply no_match_cons].
Qed.

Lemma no_match_subx_loop p filter s adv fuel :
  no_match p s -> subx_loop (S fuel) p filter s adv = Some (s, O).
Proof. intros H. simpl. by rewrite no_match_sre_search. Qed.

Lemma lang_nonempty p m : ~ lang p [] -> lang p m -> m <> [].
Proof. by intros Hne Hm ->. Qed.

(** For a pattern that cannot match the empty text, the loop computes the
    specified replacement. *)
Lemma subx_loop_replaced p filter :
  ~ lang p [] ->
  forall fuel s adv, (length s < fuel)%nat ->
  exists out n, subx_loop fuel p filter s adv = Some (out, n)
                /\ replaced_all p filter s out n.
Proof.
  intros Hne. induction fuel as [|fuel IH]; intros s adv Hlt; [lia|]. simpl.
  rewrite sre_search_nonnull by done.
  destruct (search_from p s) as [[[b m] a]|] eqn:Hs.
  - destruct (search_from_Some _ _ _ _ _ Hs) as (-> & Hm & Hleft).
    pose proof (lang_nonempty _ _ Hne Hm) as Hm'.
    destruct (IH a (bool_decide (m = []))) as (out & n & -> & Hrep).
    { rewrite !length_app in Hlt. destruct m; [done|]. simpl in Hlt. lia. }
    exists (b ++ filter ++ out), (S n). split; [done|]. by constructor.
  - exists s, O. split; [done|]. constructor. by apply search_from_None.
Qed.

Lemma pattern_subx_replaced p filter s :
  ~ lang p [] ->
  exists out n, pattern_subx p filter s = Some (out, n) /\ replaced_all p filter s out n.
Proof. intros Hne. apply subx_loop_replaced; [done|lia]. Qed.

Lemma no_match_pattern_subx p filter s :
  no_match p s -> pattern_subx p filter s = Some (s, O).
Proof.
  intros H. unfold pattern_subx.
  replace (2 * length s + 2)%nat with (S (2 * length s + 1)) by lia.
  by apply no_match_subx_loop.
Qed.

End Loop.

(** ** Patterns that need no backtracking *)

Section Scripted.

Implicit Types (p q : pattern) (s r m u x y : str).

Lemma disjoint_spec k k' c :
  disjoint k k' = true -> in_cls k' c = true -> in_cls k c = false.
Proof.
  destruct k as [a| |d], k' as [b| |d']; simpl; try done.
  - intros Hab Hc. apply N.eqb_eq in Hc as ->. apply negb_true_iff in Hab.
    rewrite N.eqb_sym. done.
  - intros Ha Hc. destruct (N.eqb_spec c a) as [->|]; [|done].
    apply negb_true_iff in Ha. congruence.
  - intros Ha Hc. apply N.eqb_eq in Hc as ->. by apply negb_true_iff in Ha.
Qed.

Lemma scripted_rep k p :
  scripted (MaxRepeat k :: p) = true ->
  exists k' p', p = One k' :: p' /\ disjoint k k' = true /\ scripted p = true.
Proof.
  simpl. destruct p as [|[k'|k'] p']; try done.
  intros [? ?]%andb_true_iff. by exists k', p'.
Qed.

Lemma deriv_scripted c p q :
  scripted p = true -> deriv c p = Some q -> scripted q = true.
Proof.
  induction p as [|[k|k] p IH]; intros Hp Hd; simpl in Hd; [done| |].
  - destruct (in_cls k c); [|done]. by injection Hd as <-.
  - destruct (in_cls k c); [by injection Hd as <-|].
    destruct (scripted_rep _ _ Hp) as (k' & p' & -> & _ & Hp'). by apply IH.
Qed.

Lemma deriv_lang c p q m :
  deriv c p = Some q -> lang q m -> lang p (c :: m).
Proof.
  revert q m. induction p as [|[k|k] p IH]; intros q m Hd Hm; simpl in Hd; [done| |].
  - destruct (in_cls k c) eqn:Hc; [|done]. injection Hd as <-. by constructor.
  - destruct (in_cls k c) eqn:Hc.
    + injection Hd as <-. inversion Hm as [| |k0 w p0 m0 Hw Hm0]; subst.
      apply (lang_rep k (c :: w)); [by constructor|done].
    + apply (lang_rep k []); [constructor|]. by eapply IH.
Qed.

Lemma deriv_suffix c p q : deriv c p = Some q -> q `suffix_of` p.
Proof.
  induction p as [|[k|k] p IH]; intros Hd; simpl in Hd; [done| |].
  - destruct (in_cls k c); [|done]. injection Hd as <-. by apply suffix_cons_r.
  - destruct (in_cls k c); [by injection Hd as <-|]. by apply suffix_cons_r, IH.
Qed.

Lemma run_nil s : run [] s = Matched s.
Proof. by destruct s. Qed.

Lemma run_cons p c s :
  p <> [] ->
  run p (c :: s) = match deriv c p with Some q => run q s | None => Failed end.
Proof. by destruct p. Qed.

Lemma run_app p x y :
  run p (x ++ y) =
  match run p x with
  | Matched r => Matched (r ++ y)
  | Failed => Failed
  | More q => run q y
  end.
Proof.
  revert p. induction x as [|c x IH]; intros p.
  - destruct p; simpl; [by rewrite run_nil|done].
  - destruct p as [|i p]; [done|]. simpl app. rewrite !run_cons by done.
    destruct (deriv c (i :: p)); [apply IH|done].
Qed.

Lemma run_lang p : forall s r,
  run p s = Matched r -> exists m, s = m ++ r /\ lang p m.
Proof.
  intros s. revert p. induction s as [|c s IH]; intros p r H.
  - destruct p; [|done]. injection H as <-. exists []. split; [done|constructor].
  - destruct p as [|i p].
    + injection H as <-. exists []. split; [done|constructor].
    + rewrite run_cons in H by done.
      destruct (deriv c (i :: p)) as [q|] eqn:Hd; [|done].
      destruct (IH _ _ H) as (m & -> & Hm).
      exists (c :: m). split; [done|]. by eapply deriv_lang.
Qed.

Lemma lang_run p m :
  scripted p = true -> lang p m -> forall rest, run p (m ++ rest) = Matched rest.
Proof.
  intros Hp Hm. induction Hm as [|k c p m Hc Hm IH|k w p m Hw Hm IH]; intros rest.
  - apply run_nil.
  - simpl app. rewrite run_cons by done. simpl. rewrite Hc. by apply IH.
  - destruct (scripted_rep _ _ Hp) as (k' & p' & -> & Hd & Hp').
    specialize (IH Hp' rest). rewrite <- app_assoc.
    induction Hw as [|c w Hc Hw IHw]; simpl app.
    + inversion Hm as [|k0 c m' p0 Hc Hm'|]; subst.
      simpl app in *. rewrite run_cons by done. rewrite run_cons in IH by done.
      simpl in *. by rewrite (disjoint_spec _ _ _ Hd Hc).
    + rewrite run_cons by done. simpl. by rewrite Hc.
Qed.

Lemma occurs_run p u :
  scripted p = true -> occurs p u -> exists r, run p u = Matched r.
Proof. intros Hp (m & r & -> & Hm). exists r. by apply lang_run. Qed.

Lemma run_occurs p u r : run p u = Matched r -> occurs p u.
Proof. intros H. destruct (run_lang _ _ _ H) as (m & -> & Hm). by exists m, r. Qed.

Lemma lang_unique p m1 m2 r1 r2 :
  scripted p = true -> lang p m1 -> lang p m2 ->
  m1 ++ r1 = m2 ++ r2 -> m1 = m2 /\ r1 = r2.
Proof.
  intros Hp H1 H2 Heq.
  pose proof (lang_run _ _ Hp H1 r1) as E1. pose proof (lang_run _ _ Hp H2 r2) as E2.
  rewrite Heq, E2 in E1. injection E1 as ->. split; [|done]. by eapply app_inv_tail.
Qed.

Lemma scripted_nonnull p : scripted p = true -> p <> [] -> ~ lang p [].
Proof.
  intros Hp Hne Hl. pose proof (lang_run _ _ Hp Hl []) as E. by destruct p.
Qed.

(** *** Pattern remainders *)

Lemma tails_suffix {A} (q l : list A) : q <> [] -> q `suffix_of` l -> In q (tails l).
Proof.
  intros Hq. destruct q as [|b q]; [done|]. clear Hq.
  induction l as [|a l IH]; intros Hs.
  - by apply suffix_nil_inv in Hs.
  - apply suffix_cons_inv in Hs as [->|Hs]; [by left|]. right. by apply IH.
Qed.

Lemma tails_In_suffix {A} (q l : list A) : In q (tails l) -> q `suffix_of` l.
Proof.
  induction l as [|a l IH]; [done|]. intros [<-|Hin]; [done|].
  by apply suffix_cons_r, IH.
Qed.

Lemma tails_In_nonnil {A} (q l : list A) : In q (tails l) -> q <> [].
Proof. induction l as [|a l IH]; [done|]. intros [<-|Hin]; [done|by apply IH]. Qed.

Lemma run_More_tails p : forall u q, run p u = More q -> In q (tails p).
Proof.
  intros u. revert p. induction u as [|c u IH]; intros p q H.
  - destruct p; [done|]. injection H as <-. by left.
  - destruct p as [|i p]; [done|]. rewrite run_cons in H by done.
    destruct (deriv c (i :: p)) as [q'|] eqn:Hd; [|done].
    pose proof (IH _ _ H) as Hin.
    apply tails_suffix.
    + by eapply tails_In_nonnil.
    + etrans; [by apply tails_In_suffix|by eapply deriv_suffix].
Qed.

Lemma inert_spec p filter :
  inert p filter = true ->
  (forall u, u <> [] -> u `suffix_of` filter -> run p u = Failed) /\
  (forall q, In q (tails p) -> run q filter = Failed).
Proof.
  unfold inert. intros [H1 H2]%andb_true_iff.
  rewrite forallb_forall in H1. rewrite forallb_forall in H2. split.
  - intros u Hu Hs. specialize (H1 u (tails_suffix _ _ Hu Hs)). by destruct (run p u).
  - intros q Hq. specialize (H2 q Hq). by destruct (run q filter).
Qed.

Lemma suffix_app_cases {A} (l l1 l2 : list A) :
  l `suffix_of` l1 ++ l2 ->
  (exists l', l' <> [] /\ l' `suffix_of` l1 /\ l = l' ++ l2) \/ l `suffix_of` l2.
Proof.
  destruct l as [|c l]; [right; apply suffix_nil|].
  induction l1 as [|a l1 IH]; intros Hs; [by right|].
  simpl in Hs. apply suffix_cons_inv in Hs as [->|Hs].
  - left. by exists (a :: l1).
  - destruct (IH Hs) as [(l' & Hl' & Hsl & ->)|Hy]; [|by right].
    left. exists l'. split; [done|]. split; [by apply suffix_cons_r|done].
Qed.

(** Text that agrees with a match-free stretch and then runs into the
    replacement holds no match either. *)
Lemma no_occurrence_before_replacement p filter u old rest :
  scripted p = true -> inert p filter = true ->
  ~ occurs p (u ++ old) -> ~ occurs p (u ++ filter ++ rest).
Proof.
  intros Hp Hi Hold Hnew. destruct (inert_spec _ _ Hi) as [_ Hq].
  destruct (occurs_run _ _ Hp Hnew) as [r Hr]. rewrite run_app in Hr.
  destruct (run p u) as [r'|  |q] eqn:Hu; [|done|].
  - apply Hold. apply (run_occurs _ _ (r' ++ old)). by rewrite run_app, Hu.
  - rewrite run_app, (Hq q) in Hr; [done|]. by eapply run_More_tails.
Qed.

Lemma no_occurrence_in_replacement p filter u rest :
  scripted p = true -> inert p filter = true ->
  u <> [] -> u `suffix_of` filter -> ~ occurs p (u ++ rest).
Proof.
  intros Hp Hi Hu Hs Hocc. destruct (inert_spec _ _ Hi) as [Hf _].
  destruct (occurs_run _ _ Hp Hocc) as [r Hr].
  by rewrite run_app, (Hf u) in Hr.
Qed.

(** The output of the substitution holds no match. *)
Lemma replaced_all_no_match p filter s out n :
  scripted p = true -> inert p filter = true ->
  replaced_all p filter s out n -> no_match p out.
Proof.
  intros Hp Hi H. induction H as [s H|b m a out n Hm Hleft Hrest IH]; [done|].
  intros u Hu. apply suffix_app_cases in Hu as [(u' & Hu' & Hsu & ->)|Hu].
  - eapply no_occurrence_before_replacement; [done..|]. by apply Hleft.
  - apply suffix_app_cases in Hu as [(u' & Hu' & Hsu & ->)|Hu].
    + by eapply no_occurrence_in_replacement.
    + by apply IH.
Qed.

(** The specification determines the output and the count. *)
Lemma first_occurrence_unique p (b1 b2 x1 x2 : str) :
  b1 ++ x1 = b2 ++ x2 -> occurs p x1 -> occurs p x2 ->
  (forall u, u <> [] -> u `suffix_of` b1 -> ~ occurs p (u ++ x1)) ->
  (forall u, u <> [] -> u `suffix_of` b2 -> ~ occurs p (u ++ x2)) ->
  b1 = b2 /\ x1 = x2.
Proof.
  intros Heq H1 H2 L1 L2.
  apply app_eq_inv in Heq as [(l & -> & ->)|(l & -> & ->)].
  - destruct l as [|c l]; [by rewrite app_nil_r|].
    exfalso. apply (L1 (c :: l)); [done|by apply suffix_app_r|done].
  - destruct l as [|c l]; [by rewrite app_nil_r|].
    exfalso. apply (L2 (c :: l)); [done|by apply suffix_app_r|done].
Qed.

Lemma replaced_all_fun p filter s o1 n1 o2 n2 :
  scripted p = true ->
  replaced_all p filter s o1 n1 -> replaced_all p filter s o2 n2 ->
  o1 = o2 /\ n1 = n2.
Proof.
  intros Hp H1. revert o2 n2.
  induction H1 as [s H|b m a out n Hm Hleft Hrest IH]; intros o2 n2 H2.
  - inversion H2 as [|b' m' a' out' n' Hm' Hleft' Hrest']; subst; [done|].
    exfalso. apply (H (m' ++ a')); [by exists b'|by exists m', a'].
  - inversion H2 as [s' H' E|b' m' a' out' n' Hm' Hleft' Hrest' E]; subst.
    + exfalso. apply (H' (m ++ a)); [by exists b|by exists m, a].
    + destruct (first_occurrence_unique p b' b (m' ++ a') (m ++ a)) as [-> E'];
        [done|by exists m', a'|by exists m, a|done..|].
      destruct (lang_unique p m' m a' a) as [-> ->]; [done..|].
      destruct (IH _ _ Hrest') as [-> ->]. done.
Qed.

End Scripted.

(** ** The scripts' patterns and replacements *)

Section Scripts.

Implicit Types (sc : script) (w : world) (d : str).

Lemma compile_of sc : re.compile (pattern_of sc) script_flags = Some (compiled_of sc).
Proof. by destruct sc; vm_compute. Qed.

Lemma compile_repl_of sc : compile_repl (replacement_of sc) = Some (replacement_of sc).
Proof. by destruct sc; vm_compute. Qed.

Lemma scripted_of sc : scripted (compiled_of sc) = true.
Proof. by destruct sc; vm_compute. Qed.

Lemma inert_of sc : inert (compiled_of sc) (replacement_of sc) = true.
Proof. by destruct sc; vm_compute. Qed.

Lemma nonnull_of sc : ~ lang (compiled_of sc) [].
Proof. apply scripted_nonnull; [apply scripted_of|]. by destruct sc; vm_compute. Qed.

Lemma subn_of sc d :
  re.subn (pattern_of sc) (replacement_of sc) d script_flags
  = pattern_subx (compiled_of sc) (replacement_of sc) d.
Proof. unfold re.subn. by rewrite compile_of, compile_repl_of. Qed.

Lemma subn_replaced sc d :
  exists out n,
    re.subn (pattern_of sc) (replacement_of sc) d script_flags = Some (out, n)
    /\ replaced_all (compiled_of sc) (replacement_of sc) d out n.
Proof. rewrite subn_of. apply pattern_subx_replaced, nonnull_of. Qed.

Lemma sub_patched sc d :
  re.sub (pattern_of sc) (replacement_of sc) d script_flags = Some (patched sc d).
Proof.
  unfold patched. destruct (subn_replaced sc d) as (out & n & E & _).
  unfold re.sub. by rewrite E.
Qed.

Lemma re_sub_of sc d w :
  re_sub (pattern_of sc) (replacement_of sc) d script_flags w = (Ok (patched sc d), w).
Proof.
  pose proof (sub_patched sc d) as E. unfold re.sub in E. rewrite subn_of in E.
  unfold re_sub. rewrite compile_of, compile_repl_of.
  destruct (pattern_subx _ _ d) as [[out n]|]; [|done]. by injection E as ->.
Qed.

Lemma main_of_body sc :
  main_of sc = script_body (path_of sc) (pattern_of sc) (replacement_of sc) (message_of sc).
Proof. by destruct sc. Qed.

(** What a run does, case by case. *)
Lemma main_of_run sc w :
  main_of sc w =
  match disk w !! path_of sc with
  | Some f =>
      if readable f && writable f
      then (Ok tt, World (<[path_of sc := File (patched sc (text f)) true true]> (disk w))
                         (stdout w ++ [message_of sc]))
      else (Raise OSError, w)
  | None => (Raise OSError, w)
  end.
Proof.
  rewrite main_of_body. unfold script_body, bind, read_file.
  destruct (disk w !! path_of sc) as [f|] eqn:Hf; [|done].
  destruct (readable f) eqn:Hr; [|done]. rewrite re_sub_of.
  unfold write_file, bind, open_truncate. rewrite Hf.
  destruct (writable f) eqn:Hw; [|done]. simpl.
  unfold write, print. simpl. rewrite lookup_insert_eq. simpl.
  by rewrite insert_insert_eq, Hr.
Qed.


End Scripts.

(** ** Helpers for the scenarios *)

Section Scenarios.

Implicit Types (p : pattern) (s t u pre post block filter : str).

Lemma starts_with_spec t : forall s, starts_with t s = true -> s = t ++ drop (length t) s.
Proof.
  induction t as [|a t IH]; intros s H; [done|].
  destruct s as [|b s]; [done|]. simpl in H.
  apply andb_true_iff in H as [->%N.eqb_eq H]. simpl. f_equal. by apply IH.
Qed.

Lemma after_spec t : forall s post, after t s = Some post -> exists pre, s = pre ++ t ++ post.
Proof.
  induction s as [|c s IH]; intros post H; simpl in H.
  - destruct (starts_with t []) eqn:E; [|done]. injection H as <-.
    exists []. by apply starts_with_spec.
  - destruct (starts_with t (c :: s)) eqn:E.
    + injection H as <-. exists []. by apply starts_with_spec.
    + destruct (IH _ H) as [pre ->]. by exists (c :: pre).
Qed.

Lemma in_orderb_sound ts : forall s, in_orderb ts s = true -> in_order ts s.
Proof.
  induction ts as [|t ts IH]; intros s H; simpl in *; [done|].
  destruct (after t s) as [post|] eqn:E; [|done].
  destruct (after_spec _ _ _ E) as [pre ->]. exists pre, post. split; [done|by apply IH].
Qed.

Lemma found_false_no_match p s : found p s = false -> no_match p s.
Proof.
  unfold found. intros H. apply bool_decide_eq_false in H.
  rewrite sre_search_no_advance in H. apply search_from_None.
  destruct (search_from p s); [|done]. by destruct H.
Qed.

Lemma occurs_found p u s : u `suffix_of` s -> occurs p u -> found p s = true.
Proof.
  intros Hs Ho. apply bool_decide_eq_true. rewrite sre_search_no_advance.
  destruct (search_from p s) eqn:E; [done|].
  by destruct (search_from_None _ _ E u Hs).
Qed.

Lemma lang_fullmatch p m : lang p m -> fullmatch p m = true.
Proof.
  intros Hm. apply bool_decide_eq_true.
  set (ok := fun r : str => match r with [] => Some r | _ => None end).
  destruct (sre_match_complete p m ok [] Hm) as [r Hr]; [by eexists|].
  rewrite app_nil_r in Hr. rewrite Hr.
  destruct (sre_match_sound _ _ _ _ Hr) as (m' & rest & _ & _ & Hok).
  unfold ok in Hok. destruct rest; [|done]. by injection Hok as <-.
Qed.

(** *** Tokens and gaps *)

Lemma tokens_nonempty p ts : tokens p = Some ts -> ts <> [].
Proof.
  destruct p as [|[[c| |d]|[c| |d]] p]; simpl; try done.
  - by intros [= <-].
  - destruct (tokens p) as [[|t ts']|]; try done. by intros [= <-].
  - destruct (tokens p); simpl; [|done]. by intros [= <-].
Qed.

Lemma fragment_cons_char c t ts gaps :
  fragment ((c :: t) :: ts) gaps = c :: fragment (t :: ts) gaps.
Proof. by destruct ts, gaps. Qed.

Lemma tokens_lang p : forall ts gaps,
  tokens p = Some ts -> Forall whitespace gaps -> lang p (fragment ts gaps).
Proof.
  induction p as [|[k|k] p IH]; intros ts gaps Ht Hg; simpl in Ht.
  - injection Ht as <-. constructor.
  - destruct k as [c| |d]; try done.
    destruct (tokens p) as [[|t ts']|] eqn:E; try done. injection Ht as <-.
    rewrite fragment_cons_char. constructor; [apply N.eqb_refl|by apply IH].
  - destruct k as [c| |d]; try done.
    destruct (tokens p) as [ts'|] eqn:E; [|done]. injection Ht as <-.
    destruct ts' as [|t ts']; [by apply tokens_nonempty in E|].
    destruct Hg as [|g gaps Hg Hgs].
    + change (lang (MaxRepeat CategorySpace :: p) ([] ++ fragment (t :: ts') [])).
      constructor; [constructor|]. apply IH; [done|constructor].
    + simpl fragment. change (lang (MaxRepeat CategorySpace :: p) (g ++ fragment (t :: ts') gaps)).
      constructor; [done|]. by apply IH.
Qed.

(** *** A block in a context without matches *)

Lemma isolated_replaced p filter block pre post :
  scripted p = true -> isolated p block = true ->
  no_match p pre -> no_match p post ->
  replaced_all p filter (pre ++ block ++ post) (pre ++ filter ++ post) 1.
Proof.
  intros Hp Hiso Hpre Hpost.
  destruct p as [|[k|k] p']; try done. simpl in Hiso.
  destruct (run (One k :: p') block) as [[|? ?]| |] eqn:Hrun; try done.
  rewrite forallb_forall in Hiso.
  constructor.
  - destruct (run_lang _ _ _ Hrun) as (m & -> & Hm). by rewrite app_nil_r.
  - intros u Hu Hs Hocc. destruct (occurs_run _ _ Hp Hocc) as [r Hr].
    rewrite run_app in Hr.
    destruct (run (One k :: p') u) as [r'| |q] eqn:Eu; [|done|].
    + apply (Hpre u Hs). by eapply run_occurs.
    + destruct u as [|c u]; [done|]. rewrite run_cons in Eu by done. simpl in Eu.
      destruct (in_cls k c); [|done]. apply run_More_tails in Eu.
      rewrite run_app in Hr. specialize (Hiso q Eu). by destruct (run q block).
  - by constructor.
Qed.

End Scenarios.

(** * The properties of the scripts *)

(** C1.  For every document, the [re.sub] call of each script (its
    hard-coded pattern and replacement, flags [MULTILINE | DOTALL]) returns
    the document with every non-overlapping match of the pattern, taken from
    left to right, replaced by the replacement text; the count [re.subn]
    reports for the same call is the number of replacements made.  The
    specification [replaced_all] admits no other output and no other
    count. *)
Theorem C1_sub_replaces_every_match (sc : script) (document : str) :
  exists p out n,
    re.compile (pattern_of sc) script_flags = Some p
    /\ re.sub (pattern_of sc) (replacement_of sc) document script_flags = Some out
    /\ re.subn (pattern_of sc) (replacement_of sc) document script_flags = Some (out, n)
    /\ replaced_all p (replacement_of sc) document out n
    /\ (forall out' n',
          replaced_all p (replacement_of sc) document out' n' -> out' = out /\ n' = n).
Proof.
  destruct (subn_replaced sc document) as (out & n & E & Hrep).
  exists (compiled_of sc), out, n.
  split; [apply compile_of|]. split; [unfold re.sub; by rewrite E|].
  split; [done|]. split; [done|].
  intros out' n' Hrep'. eapply replaced_all_fun; [apply scripted_of|done..].
Qed.

(** C2.  For each script's pattern and replacement and every document,
    substituting a second time changes nothing: run on the output of the
    first substitution, [re.subn] finds zero matches and returns that output
    as it is. *)
Theorem C2_substitution_idempotent (sc : script) (document : str) :
  exists once n,
    re.subn (pattern_of sc) (replacement_of sc) document script_flags = Some (once, n)
    /\ re.subn (pattern_of sc) (replacement_of sc) once script_flags = Some (once, O)
    /\ re.sub (pattern_of sc) (replacement_of sc) once script_flags = Some once.
Proof.
  destruct (subn_replaced sc document) as (once & n & E & Hrep).
  exists once, n. split; [done|].
  assert (re.subn (pattern_of sc) (replacement_of sc) once script_flags = Some (once, O))
    as E2.
  { rewrite subn_of. apply no_match_pattern_subx.
    eapply replaced_all_no_match; [apply scripted_of|apply inert_of|done]. }
  split; [done|]. unfold re.sub. by rewrite E2.
Qed.

(** C5.  Scenario 1: on the document of the scenario the substitution of
    fix_admin_type makes exactly one replacement; the output is the expected
    text, in which the fields occur in the order id, name, email,
    adminNotes, adminLabels, adminUpdatedAt, profile?. *)
Theorem C5_scenario_1 :
  re.subn fix_admin_type.old_user_pattern fix_admin_type.new_user_replacement
          scenario_1_document (N.lor re.MULTILINE re.DOTALL)
  = Some (scenario_1_expected, 1%nat)
  /\ in_order scenario_1_fields scenario_1_expected.
Proof.
  split; [by vm_compute|]. apply in_orderb_sound. by vm_compute.
Qed.

(** C6.  Scenario 2: in a document that contains the [include] block of the
    scenario, and in which the pattern finds nothing before the block or
    after it, the substitution of fix_query makes exactly one replacement:
    the block gives way to the replacement, which contains [select:] and,
    unlike the block, does not contain [include:]. *)
Theorem C6_scenario_2 (pre post : str) :
  re.subn fix_query.old_pattern fix_query.new_replacement pre
          (N.lor re.MULTILINE re.DOTALL) = Some (pre, O) ->
  re.subn fix_query.old_pattern fix_query.new_replacement post
          (N.lor re.MULTILINE re.DOTALL) = Some (post, O) ->
  re.subn fix_query.old_pattern fix_query.new_replacement
          (pre ++ scenario_2_block ++ post) (N.lor re.MULTILINE re.DOTALL)
  = Some (pre ++ fix_query.new_replacement ++ post, 1%nat)
  /\ contains (of_string "select:") fix_query.new_replacement = true
  /\ contains (of_string "include:") scenario_2_block = true
  /\ contains (of_string "include:") fix_query.new_replacement = false.
Proof.
  intros Hpre Hpost. split; [|by vm_compute].
  assert (forall d, re.subn fix_query.old_pattern fix_query.new_replacement d
                      (N.lor re.MULTILINE re.DOTALL) = Some (d, O) ->
                    no_match (compiled_of FixQuery) d) as Hnone.
  { intros d E. destruct (subn_replaced FixQuery d) as (out & n & E' & Hrep).
    change (pattern_of FixQuery) with fix_query.old_pattern in E'.
    change (replacement_of FixQuery) with fix_query.new_replacement in E'.
    change script_flags with (N.lor re.MULTILINE re.DOTALL) in E'.
    rewrite E in E'. injection E' as <- <-. by inversion Hrep. }
  destruct (subn_replaced FixQuery (pre ++ scenario_2_block ++ post))
    as (out & n & E & Hrep).
  destruct (replaced_all_fun (compiled_of FixQuery) fix_query.new_replacement
              (pre ++ scenario_2_block ++ post) out n
              (pre ++ fix_query.new_replacement ++ post) 1) as [-> ->].
  - apply scripted_of.
  - done.
  - apply isolated_replaced; [apply scripted_of|by vm_compute|by apply Hnone..].
  - done.
Qed.

Lemma C6_scenario_2_witness :
  let pre := of_string "where: { id }, include: { " in
  let post := of_string " orderBy: { createdAt: 'desc' }" in
  re.subn fix_query.old_pattern fix_query.new_replacement pre
          (N.lor re.MULTILINE re.DOTALL) = Some (pre, O)
  /\ re.subn fix_query.old_pattern fix_query.new_replacement post
             (N.lor re.MULTILINE re.DOTALL) = Some (post, O)
  /\ re.subn fix_query.old_pattern fix_query.new_replacement
             (pre ++ scenario_2_block ++ post) (N.lor re.MULTILINE re.DOTALL)
     = Some (pre ++ fix_query.new_replacement ++ post, 1%nat).
Proof.
  intros pre post.
  assert (re.subn fix_query.old_pattern fix_query.new_replacement pre
            (N.lor re.MULTILINE re.DOTALL) = Some (pre, O)) as Hpre
    by (vm_compute; reflexivity).
  assert (re.subn fix_query.old_pattern fix_query.new_replacement post
            (N.lor re.MULTILINE re.DOTALL) = Some (post, O)) as Hpost
    by (vm_compute; reflexivity).
  split; [exact Hpre|]. split; [exact Hpost|].
  exact (proj1 (C6_scenario_2 pre post Hpre Hpost)).
Defined.

(** C9.  For every document in which the pattern has no match, the
    substitution returns the document as it is, with a count of 0.  This
    holds for every pattern and replacement of the fragment, the scripts'
    among them. *)
Theorem C9_no_match_no_change (pattern repl document : str) (flags : N) (p : list item) :
  re.compile pattern flags = Some p ->
  is_Some (compile_repl repl) ->
  no_match p document ->
  re.subn pattern repl document flags = Some (document, O)
  /\ re.sub pattern repl document flags = Some document.
Proof.
  intros Hp [filter Hf] Hno.
  assert (re.subn pattern repl document flags = Some (document, O)) as E.
  { unfold re.subn. rewrite Hp, Hf. simpl. by apply no_match_pattern_subx. }
  split; [done|]. unfold re.sub. by rewrite E.
Qed.

Lemma C9_no_match_no_change_witness :
  let document := of_string "type Props = { user: { id: string } };" in
  re.compile fix_admin_type.old_user_pattern script_flags = Some (compiled_of FixAdminType)
  /\ is_Some (compile_repl fix_admin_type.new_user_replacement)
  /\ no_match (compiled_of FixAdminType) document
  /\ re.subn fix_admin_type.old_user_pattern fix_admin_type.new_user_replacement
             document script_flags = Some (document, O)
  /\ re.sub fix_admin_type.old_user_pattern fix_admin_type.new_user_replacement
            document script_flags = Some document.
Proof.
  intros document.
  assert (re.compile fix_admin_type.old_user_pattern script_flags
          = Some (compiled_of FixAdminType)) as Hp by (vm_compute; reflexivity).
  assert (is_Some (compile_repl fix_admin_type.new_user_replacement)) as Hf
    by (eexists; vm_compute; reflexivity).
  assert (no_match (compiled_of FixAdminType) document) as Hno
    by (apply found_false_no_match; vm_compute; reflexivity).
  split; [exact Hp|]. split; [exact Hf|]. split; [exact Hno|].
  exact (C9_no_match_no_change _ _ document _ _ Hp Hf Hno).
Defined.

(** C7.  Two fragments made of a script's fixed tokens in order, which
    differ only in the whitespace (spaces, tabs, line breaks) between the
    tokens, are matched alike: the pattern matches each of them in full,
    over line breaks too, and finds one inside a document exactly when it
    finds the other there. *)
Theorem C7_whitespace_between_tokens (sc : script) (gaps1 gaps2 : list str) :
  Forall whitespace gaps1 -> Forall whitespace gaps2 ->
  exists toks,
    tokens (compiled_of sc) = Some toks
    /\ fullmatch (compiled_of sc) (fragment toks gaps1)
       = fullmatch (compiled_of sc) (fragment toks gaps2)
    /\ fullmatch (compiled_of sc) (fragment toks gaps1) = true
    /\ (forall pre post,
          found (compiled_of sc) (pre ++ fragment toks gaps1 ++ post)
          = found (compiled_of sc) (pre ++ fragment toks gaps2 ++ post))
    /\ (forall pre post,
          found (compiled_of sc) (pre ++ fragment toks gaps1 ++ post) = true).
Proof.
  intros H1 H2.
  assert (exists toks, tokens (compiled_of sc) = Some toks) as [toks Ht]
    by (destruct sc; eexists; vm_compute; reflexivity).
  exists toks. split; [done|].
  pose proof (tokens_lang _ _ _ Ht H1) as L1.
  pose proof (tokens_lang _ _ _ Ht H2) as L2.
  assert (forall gaps pre post, lang (compiled_of sc) (fragment toks gaps) ->
            found (compiled_of sc) (pre ++ fragment toks gaps ++ post) = true) as Hfound.
  { intros gaps pre post L. apply (occurs_found _ (fragment toks gaps ++ post)).
    - by exists pre.
    - by exists (fragment toks gaps), post. }
  rewrite !lang_fullmatch by done. split; [done|]. split; [done|].
  split; intros pre post; by rewrite !Hfound.
Qed.

Lemma C7_whitespace_between_tokens_witness :
  let gaps1 := map of_string [" "; " "; " "; " "] in
  let gaps2 := [[10; 32; 32]; [10; 9; 9]; [13; 10]; []] in
  Forall whitespace gaps1 /\ Forall whitespace gaps2
  /\ exists toks,
       tokens (compiled_of FixQuery) = Some toks
       /\ fullmatch (compiled_of FixQuery) (fragment toks gaps1)
          = fullmatch (compiled_of FixQuery) (fragment toks gaps2)
       /\ fullmatch (compiled_of FixQuery) (fragment toks gaps1) = true
       /\ (forall pre post,
             found (compiled_of FixQuery) (pre ++ fragment toks gaps1 ++ post)
             = found (compiled_of FixQuery) (pre ++ fragment toks gaps2 ++ post))
       /\ (forall pre post,
             found (compiled_of FixQuery) (pre ++ fragment toks gaps1 ++ post) = true).
Proof.
  intros gaps1 gaps2.
  assert (Forall whitespace gaps1) as H1 by (repeat constructor).
  assert (Forall whitespace gaps2) as H2 by (repeat constructor).
  split; [exact H1|]. split; [exact H2|].
  exact (C7_whitespace_between_tokens FixQuery gaps1 gaps2 H1 H2).
Defined.

(** ** The shell *)

Section Shell.

Implicit Types (sc : script) (w : world) (d out : str).





Lemma patched_subn sc d out n :
  re.subn (pattern_of sc) (replacement_of sc) d script_flags = Some (out, n) ->
  patched sc d = out.
Proof. intros E. unfold patched, re.sub. by rewrite E. Qed.


End Shell.



(** C8.  A script exits with status 0 exactly when the file could be read
    and written, whatever its content: a run that finds no match exits with
    status 0 as well.  It exits with a status other than 0 exactly when the
    file is missing, cannot be read or cannot be written. *)
Theorem C8_exit_status (sc : script) (w : world) :
  (status_of sc w = 0%Z <->
   exists f, disk w !! path_of sc = Some f /\ readable f = true /\ writable f = true)
  /\ (status_of sc w <> 0%Z <->
      disk w !! path_of sc = None
      \/ exists f, disk w !! path_of sc = Some f
                   /\ (readable f = false \/ writable f = false))
  /\ (forall f out,
        disk w !! path_of sc = Some f -> readable f = true -> writable f = true ->
        re.subn (pattern_of sc) (replacement_of sc) (text f) script_flags = Some (out, O) ->
        status_of sc w = 0%Z).
Proof.
  unfold status_of. rewrite main_of_run.
  destruct (disk w !! path_of sc) as [f|] eqn:Hf.
  - destruct (readable f) eqn:Hr, (writable f) eqn:Hw; simpl.
    + split; [split; [by exists f|done]|]. split; [|done].
      split; [done|]. intros [?|(f' & [= <-] & [?|?])]; congruence.
    + split; [split; [done|intros (f' & [= <-] & ? & ?); congruence]|].
      split; [|intros f' out [= <-]; congruence].
      split; [|done]. intros _. right. exists f. auto.
    + split; [split; [done|intros (f' & [= <-] & ? & ?); congruence]|].
      split; [|intros f' out [= <-]; congruence].
      split; [|done]. intros _. right. exists f. auto.
    + split; [split; [done|intros (f' & [= <-] & ? & ?); congruence]|].
      split; [|intros f' out [= <-]; congruence].
      split; [|done]. intros _. right. exists f. auto.
  - simpl. split; [split; [done|by intros (f & ? & _)]|].
    split; [|done]. split; [by left|done].
Qed.

Lemma C8_exit_status_witness :
  let d := of_string "export const x = 1;" in
  let w := world_with FixQuery d true true in
  disk w !! path_of FixQuery = Some (File d true true)
  /\ re.subn (pattern_of FixQuery) (replacement_of FixQuery) d script_flags = Some (d, O)
  /\ status_of FixQuery w = 0%Z.
Proof.
  intros d w.
  assert (disk w !! path_of FixQuery = Some (File d true true)) as Hf
    by apply lookup_singleton_eq.
  assert (re.subn (pattern_of FixQuery) (replacement_of FixQuery) d script_flags
          = Some (d, O)) as E by (vm_compute; reflexivity).
  split; [exact Hf|]. split; [exact E|].
  exact (proj2 (proj2 (C8_exit_status FixQuery w)) (File d true true) d Hf eq_refl eq_refl E).
Defined.

(** C3, as the scripts have it.  A script prints one fixed line when it runs
    to its end and nothing when it fails; the line is the same whether or
    not its pattern matched, so the output does not tell the number of
    replacements. *)
Theorem C3_fixed_message (sc : script) (w : world) :
  stdout (world_after sc w)
  = (if (status_of sc w =? 0)%Z then stdout w ++ [message_of sc] else stdout w)
  /\ (forall w',
        stdout w' = stdout w -> status_of sc w = 0%Z -> status_of sc w' = 0%Z ->
        stdout (world_after sc w') = stdout (world_after sc w)).
Proof.
  assert (forall w0, stdout (world_after sc w0)
                     = if (status_of sc w0 =? 0)%Z then stdout w0 ++ [message_of sc]
                       else stdout w0) as Hout.
  { intros w0. unfold world_after, status_of. rewrite main_of_run.
    destruct (disk w0 !! path_of sc) as [f|]; [|done].
    by destruct (readable f && writable f). }
  split; [apply Hout|].
  intros w' Heq H0 H0'. rewrite !Hout, H0, H0'. simpl. by rewrite Heq.
Qed.

(** C3, as stated, fails: with fix_admin_type, a run on an empty file (no
    occurrence) and a run on the document of scenario 1 (one occurrence)
    both succeed and print the same line. *)
Lemma C3_counterexample :
  ~ (forall sc w1 w2 f1 f2 out1 out2 n2,
       disk w1 !! path_of sc = Some f1 -> disk w2 !! path_of sc = Some f2 ->
       stdout w1 = stdout w2 ->
       status_of sc w1 = 0%Z -> status_of sc w2 = 0%Z ->
       re.subn (pattern_of sc) (replacement_of sc) (text f1) script_flags = Some (out1, O) ->
       re.subn (pattern_of sc) (replacement_of sc) (text f2) script_flags
       = Some (out2, S n2) ->
       stdout (world_after sc w1) <> stdout (world_after sc w2)).
Proof.
  intros H.
  apply (H FixAdminType
           (world_with FixAdminType [] true true)
           (world_with FixAdminType scenario_1_document true true)
           (File [] true true) (File scenario_1_document true true)
           [] scenario_1_expected O).
  - apply lookup_singleton_eq.
  - apply lookup_singleton_eq.
  - done.
  - unfold status_of. rewrite main_of_run. unfold world_with. simpl disk.
    by rewrite lookup_singleton_eq.
  - unfold status_of. rewrite main_of_run. unfold world_with. simpl disk.
    by rewrite lookup_singleton_eq.
  - by vm_compute.
  - by vm_compute.
  - unfold world_after. rewrite !main_of_run. unfold world_with. simpl disk.
    by rewrite !lookup_singleton_eq.
Qed.




(** * Further properties of the scripts *)

(** ** Substitution and concatenation *)

Section Compose.

Implicit Types (p q : pattern) (s r m u x y filter : str).

(** A stretch in which no match starts, in front of a text, stays as it
    is. *)
Lemma replaced_all_prefix_free p filter x y out n :
  (forall u, u <> [] -> u `suffix_of` x -> ~ occurs p (u ++ y)) ->
  replaced_all p filter y out n ->
  replaced_all p filter (x ++ y) (x ++ out) n.
Proof.
  intros Hx Hy. inversion Hy as [s Hno|b m a out' n' Hm Hleft Hrest]; subst.
  - constructor. intros u Hu. apply suffix_app_cases in Hu as [(u' & Hu' & Hs & ->)|Hu].
    + by apply Hx.
    + by apply Hno.
  - rewrite !(app_assoc x b). constructor; [done| |done].
    intros u Hu Hs. apply suffix_app_cases in Hs as [(u' & Hu' & Hs & ->)|Hs].
    + rewrite <- app_assoc. by apply Hx.
    + by apply Hleft.
Qed.

(** When every match that starts in [x] also ends in [x], the substitution
    of [x ++ y] is made of those of [x] and of [y]. *)
Lemma replaced_all_app p filter x y ox nx oy ny :
  (forall u, u <> [] -> u `suffix_of` x -> occurs p (u ++ y) -> occurs p u) ->
  replaced_all p filter x ox nx -> replaced_all p filter y oy ny ->
  replaced_all p filter (x ++ y) (ox ++ oy) (nx + ny).
Proof.
  intros Hclosed Hx Hy.
  induction Hx as [x Hno|b m a out n Hm Hleft Hrest IH].
  - apply replaced_all_prefix_free; [|done].
    intros u Hu Hs Hocc. apply (Hno u Hs). by apply Hclosed.
  - rewrite <- !app_assoc. simpl. constructor; [done| |].
    + intros u Hu Hs Hocc. apply (Hleft u Hu Hs). apply (Hclosed (u ++ m ++ a)).
      * by destruct u.
      * by apply suffix_app.
      * by rewrite <- !app_assoc.
    + apply IH. intros u Hu Hs. apply Hclosed; [done|].
      etrans; [done|]. rewrite app_assoc. by apply suffix_app_r.
Qed.

Lemma run_More_proper k p u q :
  u <> [] -> run (One k :: p) u = More q -> In q (tails p).
Proof.
  intros Hu H. destruct u as [|c u]; [done|]. rewrite run_cons in H by done.
  simpl in H. destruct (in_cls k c); [|done]. by eapply run_More_tails.
Qed.

Lemma opening_shape p a b :
  opening p = Some (a, b) -> exists p', p = One (Literal a) :: One (Literal b) :: p'.
Proof.
  destruct p as [|[[a'| |]|] [|[[b'| |]|] p']]; try done.
  intros [= -> ->]. by eexists.
Qed.

(** A match opens with the opening of its pattern. *)
Lemma lang_opening p a b m :
  opening p = Some (a, b) -> lang p m -> exists m', m = a :: b :: m'.
Proof.
  intros (p' & ->)%opening_shape Hm.
  inversion Hm as [|k c p0 m0 Hc Hm0|]; subst.
  inversion Hm0 as [|k' c' p1 m1 Hc' Hm1|]; subst.
  simpl in Hc, Hc'. apply N.eqb_eq in Hc as ->. apply N.eqb_eq in Hc' as ->. by eexists.
Qed.

(** A match begun earlier cannot go on into a text that opens with [x]. *)
Lemma shut_closed p x u y :
  scripted p = true -> shut p x = true -> (exists k p', p = One k :: p') ->
  u <> [] -> occurs p (u ++ x ++ y) -> occurs p u.
Proof.
  intros Hp Hshut (k & p' & ->) Hu Hocc. unfold shut in Hshut. simpl in Hshut.
  rewrite forallb_forall in Hshut.
  destruct (occurs_run _ _ Hp Hocc) as [r Hr]. rewrite run_app in Hr.
  destruct (run (One k :: p') u) as [r'| |q] eqn:Eu; [by eapply run_occurs|done|].
  apply run_More_proper in Eu; [|done]. specialize (Hshut q Eu).
  rewrite run_app in Hr. by destruct (run q x).
Qed.

Lemma self_apart_spec p :
  self_apart p = true ->
  exists a b, opening p = Some (a, b) /\ scripted p = true /\ shut p [a; b] = true.
Proof.
  unfold self_apart. destruct (opening p) as [[a b]|]; [|done].
  intros [? ?]%andb_true_iff. by exists a, b.
Qed.

(** The document cut in front of a text that opens like a match. *)
Lemma replaced_all_cut p filter a b x y ox nx oy ny :
  scripted p = true -> opening p = Some (a, b) -> shut p [a; b] = true ->
  replaced_all p filter x ox nx -> replaced_all p filter (a :: b :: y) oy ny ->
  replaced_all p filter (x ++ a :: b :: y) (ox ++ oy) (nx + ny).
Proof.
  intros Hp Hop Hshut Hx Hy. apply replaced_all_app; [|done..].
  intros u Hu _ Hocc. destruct (opening_shape _ _ _ Hop) as [p' ->].
  eapply (shut_closed _ [a; b] u y); [done..|by eexists _, _|done|done].
Qed.

Lemma replaced_all_S p filter s out n :
  replaced_all p filter s out (S n) -> exists u, u `suffix_of` s /\ occurs p u.
Proof.
  intros H. inversion H as [|b m a out' n' Hm _ _]; subst.
  exists (m ++ a). split; [by exists b|by exists m, a].
Qed.

(** The output differs from the input exactly when something was replaced. *)
Lemma replaced_all_changed p filter s out n :
  scripted p = true -> inert p filter = true ->
  replaced_all p filter s out n -> (out = s <-> n = O).
Proof.
  intros Hp Hi H. split.
  - intros ->. destruct n as [|n]; [done|]. exfalso.
    destruct (replaced_all_S _ _ _ _ _ H) as (u & Hs & Ho).
    by apply (replaced_all_no_match _ _ _ _ _ Hp Hi H u Hs).
  - intros ->. by inversion H.
Qed.

End Compose.

(** ** Two patterns over one document *)

Section Apart.

Implicit Types (p q : pattern) (s r m u x y filter : str).

Lemma span_unique (P : N -> Prop) (w1 w2 t1 t2 : str) c1 c2 :
  Forall P w1 -> Forall P w2 -> ~ P c1 -> ~ P c2 ->
  w1 ++ c1 :: t1 = w2 ++ c2 :: t2 -> w1 = w2 /\ c1 :: t1 = c2 :: t2.
Proof.
  intros H1. revert w2. induction H1 as [|d w1 Hd H1 IH]; intros w2 H2 N1 N2 E.
  - destruct H2 as [|d w2 Hd H2]; [done|]. simpl in E. injection E as -> _. done.
  - destruct H2 as [|d' w2 Hd' H2]; simpl in E.
    + injection E as -> _. done.
    + injection E as -> E. destruct (IH _ H2 N1 N2 E) as [-> ?]. done.
Qed.

(** Two patterns that part ways do not both match at one place. *)
Lemma diverge_excl p1 : forall p2 m1 r1 m2 r2,
  scripted p1 = true -> scripted p2 = true -> diverge p1 p2 = true ->
  lang p1 m1 -> lang p2 m2 -> m1 ++ r1 = m2 ++ r2 -> False.
Proof.
  induction p1 as [|[k1|k1] p1 IH]; intros p2 m1 r1 m2 r2 S1 S2 Hd L1 L2 E.
  - done.
  - destruct k1 as [a| |]; try done.
    destruct p2 as [|[[b| |]|] p2]; try done. simpl in Hd.
    inversion L1 as [|k c p0 m1' Hc1 L1'|]; subst.
    inversion L2 as [|k c' p0 m2' Hc2 L2'|]; subst.
    simpl in Hc1, Hc2. apply N.eqb_eq in Hc1 as ->. apply N.eqb_eq in Hc2 as ->.
    injection E as -> E. rewrite N.eqb_refl in Hd. simpl in Hd.
    by eapply (IH p2 m1' r1 m2' r2).
  - destruct k1 as [| |]; try done.
    destruct p2 as [|[|[| |]] p2]; try done. simpl in Hd.
    destruct (scripted_rep _ _ S1) as (k1 & p1' & -> & D1 & S1').
    destruct (scripted_rep _ _ S2) as (k2 & p2' & -> & D2 & S2').
    inversion L1 as [| |k w1 p0 m1' W1 L1']; subst.
    inversion L2 as [| |k w2 p0 m2' W2 L2']; subst.
    inversion L1' as [|k c1 p0 m1'' Hc1 _|]; subst.
    inversion L2' as [|k c2 p0 m2'' Hc2 _|]; subst.
    pose proof (disjoint_spec _ _ _ D1 Hc1) as N1.
    pose proof (disjoint_spec _ _ _ D2 Hc2) as N2. simpl in N1, N2.
    rewrite <- !app_assoc in E. simpl in E.
    destruct (span_unique (fun c => Py_UNICODE_ISSPACE c = true) w1 w2
                (m1'' ++ r1) (m2'' ++ r2) c1 c2) as [_ E']; [done|done|congruence..|].
    by eapply (IH (One k2 :: p2') (c1 :: m1'') r1 (c2 :: m2'') r2).
Qed.

Lemma diverge_not_both p1 p2 x :
  scripted p1 = true -> scripted p2 = true -> diverge p1 p2 = true ->
  occurs p1 x -> ~ occurs p2 x.
Proof.
  intros S1 S2 Hd (m1 & r1 & -> & L1) (m2 & r2 & E & L2).
  by eapply (diverge_excl p1 p2 m1 r1 m2 r2).
Qed.

(** No match of [p1] starts strictly inside a match of [p2]. *)
Lemma no_start_inside p1 p2 a b m1 u y :
  scripted p2 = true -> opening p1 = Some (a, b) -> shut p2 [a; b] = true ->
  (exists k p', p2 = One k :: p') ->
  lang p2 (m1 ++ u) -> m1 <> [] -> u <> [] -> ~ occurs p1 (u ++ y).
Proof.
  intros S2 Hop Hshut (k & p' & ->) L2 Hm1 Hu (mm & rr & E & L1).
  destruct (lang_opening _ _ _ _ Hop L1) as [mm' ->].
  pose proof (lang_run _ _ S2 L2 []) as Hrun. rewrite app_nil_r, run_app in Hrun.
  unfold shut, tl in Hshut. rewrite forallb_forall in Hshut.
  destruct (run (One k :: p') m1) as [r'| |q] eqn:E1; [|done|].
  - injection Hrun as Hr. by destruct r', u.
  - apply run_More_proper in E1; [|done]. specialize (Hshut q E1). cbv beta in Hshut.
    destruct u as [|c [|c' u]]; [done| |]; simpl in E.
    + injection E as -> E.
      assert (run q [a; b] = Matched [b]) as Hab
        by (change [a; b] with ([a] ++ [b]); by rewrite run_app, Hrun).
      by rewrite Hab in Hshut.
    + injection E as -> -> E. change (a :: b :: u) with ([a; b] ++ u) in Hrun.
      rewrite run_app in Hrun. destruct (run q [a; b]); simpl in Hshut; congruence.
Qed.

(** *** The joint replacement *)

Lemma suffix_cons_cases {A} (l : list A) c k :
  l `suffix_of` c :: k -> l = c :: k \/ l `suffix_of` k.
Proof.
  destruct l as [|d l]; [right; apply suffix_nil|]. apply suffix_cons_inv.
Qed.

Lemma nonnull_not_occurs_nil p : ~ lang p [] -> ~ occurs p [].
Proof. intros Hne (m & r & E & Hm). symmetry in E. apply app_eq_nil in E as [-> _]. done. Qed.

Lemma replaced_both_sym p1 p2 filter s out k1 k2 :
  replaced_both p1 p2 filter s out k1 k2 -> replaced_both p2 p1 filter s out k2 k1.
Proof.
  induction 1 as [s H1 H2|b m a out k1 k2 Hm Hleft Hrest IH|b m a out k1 k2 Hm Hleft Hrest IH].
  - by constructor.
  - apply both_second; [done| |done]. intros u Hu Hs. destruct (Hleft u Hu Hs). done.
  - apply both_first; [done| |done]. intros u Hu Hs. destruct (Hleft u Hu Hs). done.
Qed.

Lemma replaced_both_cons p1 p2 filter c s out k1 k2 :
  ~ occurs p1 (c :: s) -> ~ occurs p2 (c :: s) ->
  replaced_both p1 p2 filter s out k1 k2 ->
  replaced_both p1 p2 filter (c :: s) (c :: out) k1 k2.
Proof.
  intros N1 N2 H.
  inversion H as [s' H1 H2|b m a out' j1 j2 Hm Hleft Hrest|b m a out' j1 j2 Hm Hleft Hrest];
    subst.
  - constructor; intros u [->|Hu]%suffix_cons_cases; auto.
  - change (replaced_both p1 p2 filter ((c :: b) ++ m ++ a) ((c :: b) ++ filter ++ out')
              (S j1) k2).
    apply both_first; [done| |done].
    intros u Hu [->|Hs]%suffix_cons_cases; [done|by apply Hleft].
  - change (replaced_both p1 p2 filter ((c :: b) ++ m ++ a) ((c :: b) ++ filter ++ out')
              k1 (S j2)).
    apply both_second; [done| |done].
    intros u Hu [->|Hs]%suffix_cons_cases; [done|by apply Hleft].
Qed.

Lemma replaced_both_exists p1 p2 filter :
  ~ lang p1 [] -> ~ lang p2 [] ->
  forall n s, (length s <= n)%nat -> exists out k1 k2, replaced_both p1 p2 filter s out k1 k2.
Proof.
  intros Z1 Z2. induction n as [|n IH]; intros s Hlen.
  - destruct s; [|simpl in Hlen; lia]. exists [], O, O.
    constructor; intros u ->%suffix_nil_inv; by apply nonnull_not_occurs_nil.
  - destruct s as [|c s].
    { exists [], O, O.
      constructor; intros u ->%suffix_nil_inv; by apply nonnull_not_occurs_nil. }
    simpl in Hlen.
    assert (forall p m r, ~ lang p [] -> lang p m -> c :: s = m ++ r ->
                          (length r <= n)%nat) as Hshort.
    { intros p m r Z Hm E. destruct m as [|d m]; [done|].
      apply (f_equal length) in E. rewrite length_app in E. simpl in E. lia. }
    assert (forall u : str, u <> [] -> u `suffix_of` [] -> False) as Hnil.
    { intros u Hu Hs. by apply suffix_nil_inv in Hs. }
    destruct (sre_match p1 Some (c :: s)) as [r|] eqn:M1.
    { destruct (sre_match_Some_occurs _ _ _ M1) as [E L].
      destruct (IH r) as (out & k1 & k2 & Hout); [exact (Hshort p1 _ r Z1 L E)|].
      exists (filter ++ out), (S k1), k2. rewrite E.
      apply (both_first p1 p2 filter [] _ r out k1 k2); [done| |done].
      intros u Hu Hs. by destruct (Hnil u). }
    destruct (sre_match p2 Some (c :: s)) as [r|] eqn:M2.
    { destruct (sre_match_Some_occurs _ _ _ M2) as [E L].
      destruct (IH r) as (out & k1 & k2 & Hout); [exact (Hshort p2 _ r Z2 L E)|].
      exists (filter ++ out), k1, (S k2). rewrite E.
      apply (both_second p1 p2 filter [] _ r out k1 k2); [done| |done].
      intros u Hu Hs. by destruct (Hnil u). }
    destruct (IH s) as (out & k1 & k2 & Hout); [lia|].
    exists (c :: out), k1, k2.
    apply replaced_both_cons; [by apply sre_match_None_occurs..|done].
Qed.

(** The joint replacement is the first pattern's substitution followed by
    the second's, each with its own count. *)
Lemma replaced_both_seq p1 p2 filter a1 b1 a2 b2 s out k1 k2 :
  scripted p1 = true -> scripted p2 = true ->
  inert p2 filter = true -> diverge p2 p1 = true ->
  opening p1 = Some (a1, b1) -> opening p2 = Some (a2, b2) ->
  shut p2 [a1; b1] = true -> shut p2 [a2; b2] = true ->
  replaced_both p1 p2 filter s out k1 k2 ->
  exists o1, replaced_all p1 filter s o1 k1 /\ replaced_all p2 filter o1 out k2.
Proof.
  intros S1 S2 I2 D O1 O2 K1 K2 H.
  destruct (opening_shape _ _ _ O2) as [p2' E2].
  induction H as [s H1 H2|b m a out k1 k2 L1 Hleft Hrest IH|b m a out k1 k2 L2 Hleft Hrest IH].
  - exists s. split; by constructor.
  - destruct IH as (o1 & R1 & R2). exists (b ++ filter ++ o1). split.
    + constructor; [done| |done]. intros u Hu Hs. by destruct (Hleft u Hu Hs).
    + rewrite !(app_assoc b filter). apply replaced_all_prefix_free; [|done].
      intros u Hu Hs. apply suffix_app_cases in Hs as [(u' & Hu' & Hs & ->)|Hs].
      * rewrite <- app_assoc.
        eapply no_occurrence_before_replacement; [done..|].
        by destruct (Hleft u' Hu' Hs).
      * by eapply no_occurrence_in_replacement.
  - destruct IH as (o1 & R1 & R2). exists (b ++ m ++ o1). split.
    + rewrite !(app_assoc b m). apply replaced_all_prefix_free; [|done].
      intros u Hu Hs. apply suffix_app_cases in Hs as [(u' & Hu' & Hs & ->)|Hs].
      * rewrite <- app_assoc. by destruct (Hleft u' Hu' Hs).
      * destruct Hs as [m1 ->]. destruct m1 as [|d m1].
        -- simpl. intros Hocc. eapply (diverge_not_both p2 p1 (u ++ a)); [done..| |done].
           by exists u, a.
        -- eapply (no_start_inside p1 p2 a1 b1 (d :: m1) u a); [done..| |done|done|done].
           subst p2. by eexists _, _.
    + constructor; [done| |done]. intros u Hu Hs Hocc.
      destruct (Hleft u Hu Hs) as [_ N2]. apply N2.
      destruct (lang_opening _ _ _ _ O2 L2) as [m' ->].
      assert (occurs p2 u) as (mu & ru & -> & Lu).
      { eapply (shut_closed p2 [a2; b2] u (m' ++ o1)); [done..| |done|done].
        subst p2. by eexists _, _. }
      exists mu, (ru ++ (a2 :: b2 :: m') ++ a). split; [by rewrite <- !app_assoc|done].
Qed.

Lemma apart_spec p1 p2 filter :
  apart p1 p2 filter = true ->
  exists a1 b1 a2 b2,
    opening p1 = Some (a1, b1) /\ opening p2 = Some (a2, b2)
    /\ scripted p1 = true /\ scripted p2 = true
    /\ inert p1 filter = true /\ inert p2 filter = true
    /\ diverge p1 p2 = true /\ diverge p2 p1 = true
    /\ shut p1 [a1; b1] = true /\ shut p1 [a2; b2] = true
    /\ shut p2 [a1; b1] = true /\ shut p2 [a2; b2] = true.
Proof.
  unfold apart. destruct (opening p1) as [[a1 b1]|]; [|done].
  destruct (opening p2) as [[a2 b2]|]; [|done].
  rewrite !andb_true_iff. intros. exists a1, b1, a2, b2. tauto.
Qed.

(** Substituting for one pattern and then for the other gives the same text
    in either order, and each pattern replaces as many matches after the
    other as before it. *)
Lemma apart_commute p1 p2 filter s :
  apart p1 p2 filter = true ->
  exists o1 o2 out k1 k2,
    replaced_all p1 filter s o1 k1 /\ replaced_all p2 filter o1 out k2
    /\ replaced_all p2 filter s o2 k2 /\ replaced_all p1 filter o2 out k1.
Proof.
  intros (a1 & b1 & a2 & b2 & O1 & O2 & S1 & S2 & I1 & I2 & D12 & D21 & K11 & K12 & K21 & K22)
    %apart_spec.
  destruct (opening_shape _ _ _ O1) as [p1' E1].
  destruct (opening_shape _ _ _ O2) as [p2' E2].
  destruct (replaced_both_exists p1 p2 filter) with (n := length s) (s := s)
    as (out & k1 & k2 & Hout).
  - apply scripted_nonnull; [done|by subst].
  - apply scripted_nonnull; [done|by subst].
  - done.
  - destruct (replaced_both_seq p1 p2 filter a1 b1 a2 b2 s out k1 k2) as (o1 & R1 & R12);
      [done..|].
    destruct (replaced_both_seq p2 p1 filter a2 b2 a1 b1 s out k2 k1) as (o2 & R2 & R21);
      [done..|by apply replaced_both_sym|].
    by exists o1, o2, out, k1, k2.
Qed.

End Apart.

(** ** The scripts, further *)

Section ScriptsFurther.

Implicit Types (sc : script) (w : world) (d out : str).

Lemma self_apart_of sc : self_apart (compiled_of sc) = true.
Proof. by destruct sc; vm_compute. Qed.

Lemma routers_apart :
  apart (compiled_of FixQuery) (compiled_of FixConsensusQuery) (replacement_of FixQuery) = true.
Proof. by vm_compute. Qed.

Lemma routers_replacement : replacement_of FixConsensusQuery = replacement_of FixQuery.
Proof. reflexivity. Qed.

Lemma routers_path : path_of FixConsensusQuery = path_of FixQuery.
Proof. reflexivity. Qed.

Lemma opening_of sc : opening (compiled_of sc) = Some (ord "u", ord "s").
Proof. by destruct sc; vm_compute. Qed.

Lemma patched_replaced sc d out n :
  replaced_all (compiled_of sc) (replacement_of sc) d out n -> patched sc d = out.
Proof.
  intros H. destruct (subn_replaced sc d) as (out' & n' & E & H').
  rewrite (patched_subn _ _ _ _ E).
  by destruct (replaced_all_fun _ _ _ _ _ _ _ (scripted_of sc) H' H).
Qed.

Lemma subn_replaced_eq sc d out n :
  replaced_all (compiled_of sc) (replacement_of sc) d out n ->
  re.subn (pattern_of sc) (replacement_of sc) d script_flags = Some (out, n).
Proof.
  intros H. destruct (subn_replaced sc d) as (out' & n' & E & H').
  by destruct (replaced_all_fun _ _ _ _ _ _ _ (scripted_of sc) H' H) as [-> ->].
Qed.

Lemma sub_replaced_eq sc d out n :
  replaced_all (compiled_of sc) (replacement_of sc) d out n ->
  re.sub (pattern_of sc) (replacement_of sc) d script_flags = Some out.
Proof. intros H. unfold re.sub. by rewrite (subn_replaced_eq _ _ _ _ H). Qed.

Lemma patched_idempotent sc d : patched sc (patched sc d) = patched sc d.
Proof.
  destruct (subn_replaced sc d) as (out & n & E & H).
  rewrite (patched_subn _ _ _ _ E). apply patched_replaced with (n := O).
  constructor. eapply replaced_all_no_match; [apply scripted_of|apply inert_of|done].
Qed.

Lemma patched_routers_commute d :
  patched FixConsensusQuery (patched FixQuery d)
  = patched FixQuery (patched FixConsensusQuery d).
Proof.
  destruct (apart_commute _ _ _ d routers_apart)
    as (o1 & o2 & out & k1 & k2 & R1 & R12 & R2 & R21).
  rewrite (patched_replaced FixQuery d o1 k1 R1).
  rewrite (patched_replaced FixConsensusQuery d o2 k2 R2).
  rewrite (patched_replaced FixConsensusQuery o1 out k2 R12).
  by rewrite (patched_replaced FixQuery o2 out k1 R21).
Qed.

Lemma world_after_run sc w :
  world_after sc w =
  match disk w !! path_of sc with
  | Some f =>
      if readable f && writable f
      then World (<[path_of sc := File (patched sc (text f)) true true]> (disk w))
                 (stdout w ++ [message_of sc])
      else w
  | None => w
  end.
Proof.
  unfold world_after. rewrite main_of_run.
  destruct (disk w !! path_of sc) as [f|]; [|done]. by destruct (readable f && writable f).
Qed.

Lemma lang_fullmatch_iff p m : fullmatch p m = true <-> lang p m.
Proof.
  split; [|apply lang_fullmatch].
  intros H. apply bool_decide_eq_true in H.
  destruct (sre_match_sound _ _ _ _ H) as (m' & rest & -> & Hm & Hok).
  destruct rest; [|done]. by rewrite app_nil_r.
Qed.

Lemma lang_tokens p : forall ts m,
  tokens p = Some ts -> lang p m ->
  exists gaps, length gaps = (length ts - 1)%nat /\ Forall whitespace gaps
               /\ m = fragment ts gaps.
Proof.
  induction p as [|[k|k] p IH]; intros ts m Ht Hm; simpl in Ht.
  - injection Ht as <-. inversion Hm; subst. by exists [].
  - destruct k as [c| |]; try done.
    destruct (tokens p) as [[|t ts']|] eqn:E; try done. injection Ht as <-.
    inversion Hm as [|k c' p0 m' Hc Hm'|]; subst. simpl in Hc. apply N.eqb_eq in Hc as ->.
    destruct (IH _ _ eq_refl Hm') as (gaps & Hlen & Hws & ->).
    exists gaps. by rewrite fragment_cons_char.
  - destruct k as [| |]; try done.
    destruct (tokens p) as [ts'|] eqn:E; [|done]. injection Ht as <-.
    destruct ts' as [|t ts']; [by apply tokens_nonempty in E|].
    inversion Hm as [| |k w p0 m' Hw Hm']; subst.
    destruct (IH _ _ eq_refl Hm') as (gaps & Hlen & Hws & ->).
    exists (w :: gaps). split; [simpl in *; lia|]. split; [by constructor|done].
Qed.

End ScriptsFurther.

(** X1.  A run that fails changes nothing: whether the file is missing,
    cannot be read or cannot be opened for writing, the disk and the output
    are as before; a missing file is not created and nothing is truncated. *)
Theorem failed_run_changes_nothing (sc : script) (w : world) :
  status_of sc w <> 0%Z -> world_after sc w = w.
Proof.
  unfold status_of, world_after. rewrite main_of_run.
  destruct (disk w !! path_of sc) as [f|]; [|done].
  by destruct (readable f && writable f).
Qed.

Lemma failed_run_changes_nothing_witness :
  let w := world_with FixQuery scenario_2_block true false in
  status_of FixQuery w <> 0%Z /\ world_after FixQuery w = w.
Proof.
  intros w.
  assert (status_of FixQuery w <> 0%Z) as H.
  { unfold status_of, w, world_with. rewrite main_of_run. simpl disk.
    rewrite lookup_singleton_eq. simpl. discriminate. }
  split; [exact H|]. exact (failed_run_changes_nothing FixQuery w H).
Defined.

(** X2.  A run touches one file only: every other path of the disk holds
    what it held, and what was printed before stays in front of the
    output. *)
Theorem run_touches_one_file (sc : script) (w : world) (other : string) :
  other <> path_of sc ->
  disk (world_after sc w) !! other = disk w !! other
  /\ stdout w `prefix_of` stdout (world_after sc w).
Proof.
  intros Hne. unfold world_after. rewrite main_of_run.
  destruct (disk w !! path_of sc) as [f|]; [|done].
  destruct (readable f && writable f); [|done]. simpl.
  split; [by rewrite lookup_insert_ne|by apply prefix_app_r].
Qed.

Lemma run_touches_one_file_witness :
  let w := World (<["notes.txt"%string := File scenario_1_document true true]>
                    (disk (world_with FixAdminType scenario_1_document true true)))
                 ["earlier line"%string] in
  let other := "notes.txt"%string in
  other <> path_of FixAdminType
  /\ disk (world_after FixAdminType w) !! other = disk w !! other
  /\ stdout w `prefix_of` stdout (world_after FixAdminType w).
Proof.
  intros w other.
  assert (other <> path_of FixAdminType) as H by discriminate.
  split; [exact H|]. exact (run_touches_one_file FixAdminType w other H).
Defined.

(** X3.  Running a script a second time changes no file: after the first
    run the disk is a fixed point of the script, and the second run exits
    with the status of the first. *)
Theorem second_run_changes_no_file (sc : script) (w : world) :
  disk (world_after sc (world_after sc w)) = disk (world_after sc w)
  /\ status_of sc (world_after sc w) = status_of sc w.
Proof.
  unfold world_after, status_of. rewrite (main_of_run sc w).
  destruct (disk w !! path_of sc) as [f|] eqn:Hf.
  - destruct (readable f && writable f) eqn:Hrw; simpl.
    + rewrite main_of_run. simpl. rewrite lookup_insert_eq. simpl.
      by rewrite patched_idempotent, insert_insert_eq.
    + by rewrite main_of_run, Hf, Hrw.
  - simpl. by rewrite main_of_run, Hf.
Qed.

(** X4.  The text a script's substitution returns differs from the document
    exactly when at least one replacement was made. *)
Theorem changed_iff_replaced (sc : script) (document : str) :
  exists out n,
    re.subn (pattern_of sc) (replacement_of sc) document script_flags = Some (out, n)
    /\ (out = document <-> n = O).
Proof.
  destruct (subn_replaced sc document) as (out & n & E & H).
  exists out, n. split; [done|].
  eapply replaced_all_changed; [apply scripted_of|apply inert_of|done].
Qed.

(** X5.  What a script's pattern matches in full is exactly its fixed tokens
    in order with whitespace, and nothing else, between them. *)
Theorem match_is_tokens_and_whitespace (sc : script) :
  exists toks,
    tokens (compiled_of sc) = Some toks
    /\ forall m,
         fullmatch (compiled_of sc) m = true
         <-> exists gaps, length gaps = (length toks - 1)%nat
                          /\ Forall whitespace gaps /\ m = fragment toks gaps.
Proof.
  assert (exists toks, tokens (compiled_of sc) = Some toks) as [toks Ht]
    by (destruct sc; eexists; vm_compute; reflexivity).
  exists toks. split; [done|]. intros m. rewrite lang_fullmatch_iff. split.
  - by apply lang_tokens.
  - intros (gaps & _ & Hws & ->). by apply tokens_lang.
Qed.

(** X6.  A document can be cut in front of any [user: {]: the substitution
    of the whole is the substitution of the part before the cut followed by
    that of the part after it, and the counts add up. *)
Theorem cut_before_opening (sc : script) (x y : str) :
  exists ox nx oy ny,
    re.subn (pattern_of sc) (replacement_of sc) x script_flags = Some (ox, nx)
    /\ re.subn (pattern_of sc) (replacement_of sc) (of_string "user: {" ++ y) script_flags
       = Some (oy, ny)
    /\ re.subn (pattern_of sc) (replacement_of sc) (x ++ of_string "user: {" ++ y)
               script_flags
       = Some (ox ++ oy, (nx + ny)%nat).
Proof.
  destruct (subn_replaced sc x) as (ox & nx & Ex & Hx).
  destruct (subn_replaced sc (of_string "user: {" ++ y)) as (oy & ny & Ey & Hy).
  exists ox, nx, oy, ny. split; [done|]. split; [done|].
  apply subn_replaced_eq.
  destruct (self_apart_spec _ (self_apart_of sc)) as (a & b & Hop & Hs & Hshut).
  rewrite opening_of in Hop. injection Hop as <- <-.
  apply (replaced_all_cut _ _ (ord "u") (ord "s")); [done|apply opening_of|done..].
Qed.

(** X7.  A block made of a script's tokens with whitespace between them is
    replaced wherever it stands and whatever that whitespace is: the output
    is the substitution of the text before it, the replacement, and the
    substitution of the text after it. *)
Theorem block_replaced_anywhere (sc : script) (gaps : list str) (pre post : str) :
  Forall whitespace gaps ->
  exists toks o1 n1 o2 n2,
    tokens (compiled_of sc) = Some toks
    /\ re.subn (pattern_of sc) (replacement_of sc) pre script_flags = Some (o1, n1)
    /\ re.subn (pattern_of sc) (replacement_of sc) post script_flags = Some (o2, n2)
    /\ re.subn (pattern_of sc) (replacement_of sc) (pre ++ fragment toks gaps ++ post)
               script_flags
       = Some (o1 ++ replacement_of sc ++ o2, S (n1 + n2)).
Proof.
  intros Hws.
  assert (exists toks, tokens (compiled_of sc) = Some toks) as [toks Ht]
    by (destruct sc; eexists; vm_compute; reflexivity).
  destruct (subn_replaced sc pre) as (o1 & n1 & E1 & H1).
  destruct (subn_replaced sc post) as (o2 & n2 & E2 & H2).
  exists toks, o1, n1, o2, n2. split; [done|]. split; [done|]. split; [done|].
  apply subn_replaced_eq.
  pose proof (tokens_lang _ _ _ Ht Hws) as Hm.
  destruct (lang_opening _ _ _ _ (opening_of sc) Hm) as [m' Em].
  destruct (self_apart_spec _ (self_apart_of sc)) as (a & b & Hop & Hs & Hshut).
  rewrite opening_of in Hop. injection Hop as <- <-.
  replace (S (n1 + n2)) with (n1 + S n2)%nat by lia.
  assert (replaced_all (compiled_of sc) (replacement_of sc)
            (fragment toks gaps ++ post) (replacement_of sc ++ o2) (S n2)) as Hblock.
  { apply (replaced_step _ _ [] (fragment toks gaps) post o2 n2); [done| |done].
    intros u Hu Hsuf. by apply suffix_nil_inv in Hsuf. }
  rewrite Em in Hblock |- *. simpl in Hblock |- *.
  apply (replaced_all_cut _ _ (ord "u") (ord "s")); [done|apply opening_of|done..].
Qed.

Lemma block_replaced_anywhere_witness :
  let gaps := [[10; 32; 32]; [10; 9]; []; [32]] in
  let pre := of_string "const a = { user: {include: {profile: true,},}, }; const b = {" in
  let post := of_string " };" in
  Forall whitespace gaps
  /\ exists toks o1 n1 o2 n2,
       tokens (compiled_of FixQuery) = Some toks
       /\ re.subn (pattern_of FixQuery) (replacement_of FixQuery) pre script_flags
          = Some (o1, n1)
       /\ re.subn (pattern_of FixQuery) (replacement_of FixQuery) post script_flags
          = Some (o2, n2)
       /\ re.subn (pattern_of FixQuery) (replacement_of FixQuery)
                  (pre ++ fragment toks gaps ++ post) script_flags
          = Some (o1 ++ replacement_of FixQuery ++ o2, S (n1 + n2)).
Proof.
  intros gaps pre post.
  assert (Forall whitespace gaps) as H by (repeat constructor).
  split; [exact H|]. exact (block_replaced_anywhere FixQuery gaps pre post H).
Defined.

(** X8.  Scripts that patch different files do not interfere: run one after
    the other in either order, they leave the same disk, and each exits with
    the status it has when run alone. *)
Theorem scripts_on_different_files_commute (sc1 sc2 : script) (w : world) :
  path_of sc1 <> path_of sc2 ->
  disk (world_after sc2 (world_after sc1 w)) = disk (world_after sc1 (world_after sc2 w))
  /\ status_of sc2 (world_after sc1 w) = status_of sc2 w
  /\ status_of sc1 (world_after sc2 w) = status_of sc1 w.
Proof.
  intros Hne. unfold world_after, status_of.
  rewrite (main_of_run sc1 w), (main_of_run sc2 w).
  destruct (disk w !! path_of sc1) as [f1|] eqn:H1;
    destruct (disk w !! path_of sc2) as [f2|] eqn:H2;
    try destruct (readable f1 && writable f1) eqn:R1;
    try destruct (readable f2 && writable f2) eqn:R2;
    rewrite ?main_of_run; simpl;
    rewrite ?lookup_insert_ne by done; rewrite ?H1, ?H2, ?R1, ?R2; simpl;
    try done.
  split; [|done]. by apply insert_insert_ne.
Qed.

Lemma scripts_on_different_files_commute_witness :
  let w := World (<[path_of FixQuery := File scenario_2_block true true]>
                    (disk (world_with FixAdminType scenario_1_document true true))) [] in
  path_of FixAdminType <> path_of FixQuery
  /\ disk (world_after FixQuery (world_after FixAdminType w))
     = disk (world_after FixAdminType (world_after FixQuery w))
  /\ status_of FixQuery (world_after FixAdminType w) = status_of FixQuery w
  /\ status_of FixAdminType (world_after FixQuery w) = status_of FixAdminType w.
Proof.
  intros w.
  assert (path_of FixAdminType <> path_of FixQuery) as H by discriminate.
  split; [exact H|]. exact (scripts_on_different_files_commute FixAdminType FixQuery w H).
Defined.

(** X9.  fix_query and fix_consensus_query, which patch the same file with
    the same replacement, can be applied in either order: for every document
    the two substitutions, one after the other, give the same text; each
    makes as many replacements after the other as it makes before it; and
    the two runs leave the same disk. *)
Theorem router_scripts_commute (document : str) (w : world) :
  (exists dq dc both nq nc,
     re.subn fix_query.old_pattern fix_query.new_replacement document script_flags
     = Some (dq, nq)
     /\ re.subn fix_consensus_query.old_consensus_pattern
                fix_consensus_query.new_consensus_replacement document script_flags
        = Some (dc, nc)
     /\ re.subn fix_consensus_query.old_consensus_pattern
                fix_consensus_query.new_consensus_replacement dq script_flags
        = Some (both, nc)
     /\ re.subn fix_query.old_pattern fix_query.new_replacement dc script_flags
        = Some (both, nq))
  /\ disk (world_after FixConsensusQuery (world_after FixQuery w))
     = disk (world_after FixQuery (world_after FixConsensusQuery w)).
Proof.
  split.
  - destruct (apart_commute _ _ _ document routers_apart)
      as (dq & dc & both & nq & nc & Rq & Rqc & Rc & Rcq).
    exists dq, dc, both, nq, nc.
    split; [exact (subn_replaced_eq FixQuery _ _ _ Rq)|].
    split; [exact (subn_replaced_eq FixConsensusQuery _ _ _ Rc)|].
    split; [exact (subn_replaced_eq FixConsensusQuery _ _ _ Rqc)|].
    exact (subn_replaced_eq FixQuery _ _ _ Rcq).
  - rewrite (world_after_run FixConsensusQuery (world_after FixQuery w)),
      (world_after_run FixQuery (world_after FixConsensusQuery w)),
      (world_after_run FixQuery w), (world_after_run FixConsensusQuery w), routers_path.
    destruct (disk w !! path_of FixQuery) as [f|] eqn:Hf; [|by rewrite Hf].
    destruct (readable f && writable f) eqn:Hrw; [|by rewrite Hf, Hrw].
    cbn [disk]. rewrite !lookup_insert_eq. cbn [readable writable text andb disk].
    by rewrite !insert_insert_eq, patched_routers_commute.
Qed.

(** X10.  Once both router scripts have been applied to a document, in
    either order, neither finds anything left to replace. *)
Theorem routers_reach_fixed_point (document : str) :
  exists dq both,
    re.sub fix_query.old_pattern fix_query.new_replacement document script_flags = Some dq
    /\ re.sub fix_consensus_query.old_consensus_pattern
              fix_consensus_query.new_consensus_replacement dq script_flags = Some both
    /\ re.subn fix_query.old_pattern fix_query.new_replacement both script_flags
       = Some (both, O)
    /\ re.subn fix_consensus_query.old_consensus_pattern
               fix_consensus_query.new_consensus_replacement both script_flags
       = Some (both, O).
Proof.
  destruct (apart_commute _ _ _ document routers_apart)
    as (dq & dc & both & nq & nc & Rq & Rqc & Rc & Rcq).
  exists dq, both.
  split; [exact (sub_replaced_eq FixQuery _ _ _ Rq)|].
  split; [exact (sub_replaced_eq FixConsensusQuery _ _ _ Rqc)|].
  split.
  - apply (subn_replaced_eq FixQuery). constructor.
    eapply replaced_all_no_match; [apply (scripted_of FixQuery)|apply (inert_of FixQuery)|].
    exact Rcq.
  - apply (subn_replaced_eq FixConsensusQuery). constructor.
    eapply replaced_all_no_match;
      [apply (scripted_of FixConsensusQuery)|apply (inert_of FixConsensusQuery)|].
    exact Rqc.
Qed.
